(** * SQLGenius MCP server: the SQL-extraction heuristic, the query safety
      gate and the four tool operations of [sql_mcp_server.py].

    The Python source is embedded shallowly.  A [str] is a Rocq [string],
    read as a sequence of code points below U+0100.  [str.upper] and
    [str.lower] are followed on those code points: the letters change
    case, and the sharp s becomes [SS], so that [upper] can lengthen a
    text as it does in Python.  (The micro sign and y with diaeresis, whose
    upper-case forms lie beyond U+00FF, are left as they are; the program
    only searches the result for ASCII words, which this cannot change.)
    Integers are [Z], so that [str.find] can answer [-1] as it does in
    Python.  Code that can raise runs in the [outcome] monad; the tool
    operations also thread the list of calls made to the external clients. *)

From Stdlib Require Import String Ascii List ZArith Lia Bool Arith.
Import ListNotations.
Open Scope string_scope.

(** ** Exceptions and results *)

(** The exception classes that matter for the server.  [Exception] stands
    for any error a client library raises (all of them derive from
    Python's [Exception]); [BaseException] stands for the few classes that
    do not (KeyboardInterrupt, SystemExit, CancelledError), which an
    [except Exception] clause lets through. *)
Inductive exn : Type :=
| Exception (msg : string)
| ValueError (msg : string)
| IndexError (msg : string)
| UnboundLocalError (var : string)
| BaseException (cls : string).

(** [isinstance(e, Exception)] *)
Definition is_Exception (e : exn) : bool :=
  match e with
  | BaseException _ => false
  | _ => true
  end.

(** [str(e)] *)
Definition str_of_exn (e : exn) : string :=
  match e with
  | Exception msg => msg
  | ValueError msg => msg
  | IndexError msg => msg
  | UnboundLocalError var =>
      "cannot access local variable '" ++ var ++
      "' where it is not associated with a value"
  | BaseException _ => ""
  end.

Inductive outcome (A : Type) : Type :=
| Return (a : A)
| Raise (e : exn).
Arguments Return {A} a.
Arguments Raise {A} e.

Definition obind {A B : Type} (m : outcome A) (k : A -> outcome B) : outcome B :=
  match m with
  | Return a => k a
  | Raise e => Raise e
  end.

Notation "x <- m ;; k" := (obind m (fun x => k))
  (at level 61, m at next level, right associativity).

(** [try: body  except Exception as e: handler e] *)
Definition try_except {A : Type} (body : outcome A) (handler : exn -> outcome A)
  : outcome A :=
  match body with
  | Return a => Return a
  | Raise e => if is_Exception e then handler e else Raise e
  end.

(** [l[i]] for a non-negative literal index *)
Definition getitem {A : Type} (l : list A) (i : nat) : outcome A :=
  match nth_error l i with
  | Some a => Return a
  | None => Raise (IndexError "list index out of range")
  end.

(** ** Python string primitives *)

Module PyStr.

Definition LF : string := String "010"%char EmptyString.
Definition CR : string := String "013"%char EmptyString.

Definition len (s : string) : Z := Z.of_nat (String.length s).

(** [s.startswith(p)] *)
Fixpoint startswith (s p : string) {struct p} : bool :=
  match p with
  | EmptyString => true
  | String b p' =>
      match s with
      | EmptyString => false
      | String a s' => Ascii.eqb a b && startswith s' p'
      end
  end.

(** Lowest offset at which [sub] occurs in [s], scanning left to right. *)
Fixpoint index_of (s sub : string) : option nat :=
  if startswith s sub then Some 0%nat
  else match s with
       | EmptyString => None
       | String _ s' => option_map S (index_of s' sub)
       end.

(** [s.find(sub)]: the lowest offset, or [-1]. *)
Definition find (s sub : string) : Z :=
  match index_of s sub with
  | Some i => Z.of_nat i
  | None => (-1)%Z
  end.

(** [sub in s] *)
Definition str_in (sub s : string) : bool :=
  match index_of s sub with
  | Some _ => true
  | None => false
  end.

Fixpoint drop (n : nat) (s : string) : string :=
  match n with
  | O => s
  | S n' => match s with
            | EmptyString => EmptyString
            | String _ s' => drop n' s'
            end
  end.

Fixpoint take (n : nat) (s : string) : string :=
  match n with
  | O => EmptyString
  | S n' => match s with
            | EmptyString => EmptyString
            | String c s' => String c (take n' s')
            end
  end.

(** [s[i:]], a negative [i] counting from the end as in Python. *)
Definition slice_from (s : string) (i : Z) : string :=
  if (i <? 0)%Z then drop (Z.to_nat (Z.max 0 (len s + i))) s
  else drop (Z.to_nat i) s.

(** [s[:j]] *)
Definition slice_to (s : string) (j : Z) : string :=
  if (j <? 0)%Z then take (Z.to_nat (Z.max 0 (len s + j))) s
  else take (Z.to_nat j) s.

(** The pieces of [s] between successive non-overlapping occurrences of a
    non-empty [sep], found left to right.  Every cut removes at least one
    character, so [String.length s] rounds are enough. *)
Fixpoint split_fuel (fuel : nat) (s sep : string) : list string :=
  match index_of s sep with
  | None => [s]
  | Some i =>
      match fuel with
      | O => [s]
      | S fuel' =>
          take i s :: split_fuel fuel' (drop (i + String.length sep) s) sep
      end
  end.

(** [s.split(sep)] *)
Definition split (s sep : string) : outcome (list string) :=
  match sep with
  | EmptyString => Raise (ValueError "empty separator")
  | _ => Return (split_fuel (String.length s) s sep)
  end.

(** [c.isspace()] on ASCII: tab, LF, VT, FF, CR, the four separators
    0x1c..0x1f and the space. *)
Definition isspace (c : ascii) : bool :=
  let n := nat_of_ascii c in
  (((9 <=? n) && (n <=? 13)) || ((28 <=? n) && (n <=? 32)))%nat%bool.

Fixpoint lstrip (s : string) : string :=
  match s with
  | EmptyString => EmptyString
  | String c s' => if isspace c then lstrip s' else s
  end.

Fixpoint rstrip (s : string) : string :=
  match s with
  | EmptyString => EmptyString
  | String c s' =>
      match rstrip s' with
      | EmptyString => if isspace c then EmptyString else String c EmptyString
      | r => String c r
      end
  end.

(** [s.strip()] *)
Definition strip (s : string) : string := rstrip (lstrip s).

Definition upper_char (c : ascii) : ascii :=
  let n := nat_of_ascii c in
  if (((97 <=? n)%nat && (n <=? 122)%nat) ||
      ((224 <=? n)%nat && (n <=? 254)%nat && negb (n =? 247)%nat))%bool
  then ascii_of_nat (n - 32) else c.

Definition lower_char (c : ascii) : ascii :=
  let n := nat_of_ascii c in
  if (((65 <=? n)%nat && (n <=? 90)%nat) ||
      ((192 <=? n)%nat && (n <=? 222)%nat && negb (n =? 215)%nat))%bool
  then ascii_of_nat (n + 32) else c.

Fixpoint map_chars (f : ascii -> ascii) (s : string) : string :=
  match s with
  | EmptyString => EmptyString
  | String c s' => String (f c) (map_chars f s')
  end.

(** The upper-case form of one character.  The sharp s (U+00DF) becomes
    the two letters [SS]; every other character stays one character. *)
Definition upper_cp (c : ascii) : string :=
  if Ascii.eqb c "223"%char then "SS" else String (upper_char c) EmptyString.

(** [s.upper()]: the result can be longer than [s]. *)
Fixpoint upper (s : string) : string :=
  match s with
  | EmptyString => EmptyString
  | String c s' => upper_cp c ++ upper s'
  end.

(** [s.lower()] *)
Definition lower (s : string) : string := map_chars lower_char s.

(** [s.isascii()] *)
Fixpoint isascii (s : string) : bool :=
  match s with
  | EmptyString => true
  | String c s' => (nat_of_ascii c <? 128)%nat && isascii s'
  end.

(** [sep.join(parts)] *)
Definition join (sep : string) (parts : list string) : string :=
  String.concat sep parts.

Fixpoint range_fuel (fuel start stop step : nat) : list nat :=
  match fuel with
  | O => []
  | S fuel' =>
      if (start <? stop)%nat then start :: range_fuel fuel' (start + step) stop step
      else []
  end.

(** [range(start, stop, step)] for a positive step *)
Definition range (start stop step : nat) : list nat :=
  range_fuel stop start stop step.

(** [min(l)] *)
Definition py_min (l : list Z) : outcome Z :=
  match l with
  | [] => Raise (ValueError "min() arg is an empty sequence")
  | x :: rest => Return (fold_left Z.min rest x)
  end.

End PyStr.

Import PyStr.

(** ** The query safety gate *)

Definition dangerous_keywords : list string :=
  ["insert"; "update"; "delete"; "drop"; "alter"; "create"].

(** [validate_query]: [True] when the query may run. *)
Definition validate_query (query : string) : bool :=
  negb (existsb (fun keyword => str_in keyword (lower query)) dangerous_keywords).

(** ** The SQL-extraction heuristic *)

Definition fence : string := "```".
Definition fence_sql : string := "```sql".

(** The four end markers tried by the keyword rule, in source order. *)
Definition end_markers : list string :=
  [LF ++ LF; CR ++ LF ++ CR ++ LF; ". "; "." ++ LF].

(** What one fenced segment yields once [SELECT] was seen in it:
    [query = code_blocks[i].strip()], then the [sql] tag removed. *)
Definition clean_block (block : string) : string :=
  let query := strip block in
  if startswith query "sql" then strip (slice_from query 3) else query.

(** The [for i in range(1, len(code_blocks), 2)] loop, run over the list of
    indices.  [Return (Some q)] is the [return query] inside the loop;
    [Return None] means the loop ran to its end. *)
Fixpoint scan_blocks (code_blocks : list string) (idxs : list nat)
  : outcome (option string) :=
  match idxs with
  | [] => Return None
  | i :: rest =>
      block <- getitem code_blocks i ;;
      if str_in "SELECT" (upper block) then Return (Some (clean_block block))
      else scan_blocks code_blocks rest
  end.

(** [[pos for pos in [query.find(m1), ..., query.find(m4)] if pos != -1]] *)
Definition end_positions (query : string) : list Z :=
  filter (fun pos => negb (pos =? -1)%Z)
         (map (fun marker => find query marker) end_markers).

(** The keyword rule: the text from the first [SELECT] on, cut at the
    smallest offset found among the end markers. *)
Definition select_tail (llm_response : string) : outcome string :=
  let query := slice_from llm_response (find (upper llm_response) "SELECT") in
  query <- match end_positions query with
           | [] => Return query
           | _ => cut <- py_min (end_positions query) ;;
                  Return (slice_to query cut)
           end ;;
  Return (strip query).

(** The body of the [try] block of [_extract_sql_query].  The second branch
    ends, when its loop returns nothing, on the function's last line
    [return query] with [query] never assigned. *)
Definition extract_body (llm_response : string) : outcome (option string) :=
  if str_in fence_sql llm_response then
    parts <- split llm_response fence_sql ;;
    tail <- getitem parts 1 ;;
    inner <- split tail fence ;;
    block <- getitem inner 0 ;;
    Return (Some (strip block))
  else if str_in fence llm_response && str_in "SELECT" (upper llm_response) then
    code_blocks <- split llm_response fence ;;
    found <- scan_blocks code_blocks (range 1 (List.length code_blocks) 2) ;;
    match found with
    | Some query => Return (Some query)
    | None => Raise (UnboundLocalError "query")
    end
  else if str_in "SELECT" (upper llm_response) then
    query <- select_tail llm_response ;;
    Return (Some query)
  else Return None.

(** [_extract_sql_query]: the body under [except Exception: return None]
    (the handler's [print] goes to the console and is not modelled). *)
Definition _extract_sql_query (llm_response : string) : outcome (option string) :=
  try_except (extract_body llm_response) (fun _ => Return None).

(** ** Tool results and the external clients *)

#[warnings="-register-all"]
Inductive value : Type :=
| VNone
| VBool (b : bool)
| VInt (n : Z)
| VStr (s : string)
| VList (l : list value)
| VDict (d : list (string * value)).

(** A result mapping, keys in the order the source writes them. *)
Definition dict : Type := list (string * value).

Definition has_key (k : string) (d : dict) : bool :=
  existsb (fun kv => String.eqb (fst kv) k) d.

Fixpoint lookup (k : string) (d : dict) : option value :=
  match d with
  | [] => None
  | (k', v) :: rest => if String.eqb k' k then Some v else lookup k rest
  end.

Record field : Type := {
  name : string;
  field_type : string;
  description : option string
}.

Record table : Type := {
  schema : list field;
  num_rows : Z;
  num_bytes : Z
}.

(** The server object: its configuration and the behaviour of its three
    client handles ([self.client], [self.llm], [self.db]).  Each operation
    calls a given client at most once, so a function of the arguments
    describes any client. *)
Record server : Type := {
  project_id : string;
  dataset_id : string;
  client_list_tables : string -> outcome (list string);
  client_get_table : string -> string -> outcome table;
  llm_invoke : string -> outcome string;
  db_run : string -> outcome string
}.

(** The calls that leave the process. *)
Inductive event : Type :=
| CatalogListTables (dataset_ref : string)
| CatalogGetTable (dataset table_name : string)
| LlmInvoke (prompt : string)
| DbRun (sql : string).

Definition is_db_run (ev : event) : bool :=
  match ev with DbRun _ => true | _ => false end.

(** A computation that may raise and that extends the log of client calls. *)
Definition M (A : Type) : Type := list event -> outcome A * list event.

Definition mret {A : Type} (a : A) : M A := fun log => (Return a, log).

Definition mbind {A B : Type} (m : M A) (k : A -> M B) : M B :=
  fun log =>
    match m log with
    | (Return a, log') => k a log'
    | (Raise e, log') => (Raise e, log')
    end.

Notation "x <~ m ;; k" := (mbind m (fun x => k))
  (at level 61, m at next level, right associativity).

Definition lift {A : Type} (o : outcome A) : M A := fun log => (o, log).

(** One call to a client: logged, then answered. *)
Definition call {A : Type} (ev : event) (answer : outcome A) : M A :=
  fun log => (answer, (log ++ [ev])%list).

(** [try: body  except Exception as e: handler e] around client calls. *)
Definition mtry {A : Type} (body : M A) (handler : exn -> M A) : M A :=
  fun log =>
    match body log with
    | (Return a, log') => (Return a, log')
    | (Raise e, log') =>
        if is_Exception e then handler e log' else (Raise e, log')
    end.

Definition run {A : Type} (m : M A) : outcome A * list event := m [].

(** ** The four tool operations *)

Definition get_available_tables (self : server) : M (list string) :=
  call (CatalogListTables (project_id self ++ "." ++ dataset_id self))
       (client_list_tables self (project_id self ++ "." ++ dataset_id self)).

Definition nl_prompt (tables : list string) (query : string) : string :=
  let context := "Available tables: " ++ join ", " tables ++ ". " in
  context ++ LF ++ "User query: " ++ query ++ LF ++
  "Generate and execute an appropriate SQL query.".

Definition rejection : dict :=
  [("error", VStr "Only SELECT queries are allowed");
   ("explanation",
    VStr "For security reasons, only SELECT queries are permitted.")].

Definition execute_nl_query (self : server) (query : string) : M dict :=
  tables <~ get_available_tables self ;;
  let prompt := nl_prompt tables query in
  llm_response <~ call (LlmInvoke prompt) (llm_invoke self prompt) ;;
  sql_query <~ lift (_extract_sql_query llm_response) ;;
  match sql_query with
  | None | Some EmptyString =>
      mret [("error", VStr "Could not generate valid SQL query");
            ("explanation", VStr llm_response)]
  | Some sql_query =>
      if negb (validate_query sql_query) then mret rejection
      else
        mtry (result <~ call (DbRun sql_query) (db_run self sql_query) ;;
              mret [("query", VStr sql_query);
                    ("result", VStr result);
                    ("explanation", VStr llm_response)])
             (fun e =>
              mret [("error", VStr ("Error executing query: " ++ str_of_exn e));
                    ("query", VStr sql_query);
                    ("explanation", VStr llm_response)])
  end.

Definition execute_sql_query (self : server) (query : string) : M dict :=
  if negb (validate_query query) then mret rejection
  else
    mtry (result <~ call (DbRun query) (db_run self query) ;;
          mret [("query", VStr query);
                ("result", VStr result);
                ("success", VBool true)])
         (fun e =>
          mret [("error", VStr ("Error executing query: " ++ str_of_exn e));
                ("query", VStr query);
                ("success", VBool false)]).

Definition list_tables (self : server) : M dict :=
  mtry (tables <~ get_available_tables self ;;
        mret [("tables", VList (map VStr tables));
              ("project_id", VStr (project_id self));
              ("dataset_id", VStr (dataset_id self));
              ("count", VInt (Z.of_nat (List.length tables)))])
       (fun e =>
        mret [("error", VStr ("Error listing tables: " ++ str_of_exn e))]).

Definition schema_entry (f : field) : value :=
  VDict [("name", VStr (name f));
         ("type", VStr (field_type f));
         ("description",
          match description f with Some d => VStr d | None => VNone end)].

Definition get_table_schema (self : server) (table_name : string) : M dict :=
  mtry (t <~ call (CatalogGetTable (dataset_id self) table_name)
                  (client_get_table self (dataset_id self) table_name) ;;
        mret [("table_name", VStr table_name);
              ("schema", VList (map schema_entry (schema t)));
              ("num_rows", VInt (num_rows t));
              ("size_bytes", VInt (num_bytes t))])
       (fun e =>
        mret [("error",
               VStr ("Error getting schema for table " ++ table_name ++ ": "
                     ++ str_of_exn e))]).

(** An error-shaped result: a mapping with an ["error"] key. *)
Definition is_error_result (d : dict) : bool := has_key "error" d.

(** ** Vocabulary of the specification *)

(** [sub] occurs in [s] at offset [n]. *)
Definition occurs_at (sub s : string) (n : nat) : Prop :=
  exists a b, s = a ++ sub ++ b /\ String.length a = n.

(** [sub] is a substring of [s]. *)
Definition substring_of (sub s : string) : Prop :=
  exists a b, s = a ++ sub ++ b.

(** The first occurrence of [sub] in [s] is at offset [n]. *)
Definition first_at (sub s : string) (n : nat) : Prop :=
  occurs_at sub s n /\ forall m, m < n -> ~ occurs_at sub s m.

(** The case-insensitive literal [SELECT] appears in [s]. *)
Definition mentions_select (s : string) : Prop :=
  substring_of "SELECT" (upper s).

(** The text up to the first occurrence of [sep], all of it when there is
    none: the first piece of a split. *)
Definition upto (s sep : string) : string :=
  match index_of s sep with
  | Some i => take i s
  | None => s
  end.

(** Some marker of [markers] starts at offset [c] of [q], and none of them
    starts before. *)
Definition earliest_of (markers : list string) (q : string) (c : nat) : Prop :=
  (exists mk, In mk markers /\ occurs_at mk q c) /\
  (forall c' mk, c' < c -> In mk markers -> ~ occurs_at mk q c').

(** ** Stand-ins for the external clients *)

(** A server whose catalog lists one table, whose model answers [answer]
    and whose query runner answers an empty result. *)
Definition mock_server (answer : outcome string) : server :=
  {| project_id := "proj";
     dataset_id := "shop";
     client_list_tables := fun _ => Return ["sales"];
     client_get_table := fun _ _ => Raise (Exception "Not found");
     llm_invoke := fun _ => answer;
     db_run := fun _ => Return "[]" |}.

(** ** Trimmed text *)

Fixpoint all_space (s : string) : bool :=
  match s with
  | EmptyString => true
  | String c s' => isspace c && all_space s'
  end.

(** [s] neither starts nor ends with a whitespace character. *)
Definition trimmed (s : string) : Prop :=
  (forall c t, s = String c t -> isspace c = false) /\
  (forall t c, s = t ++ String c "" -> isspace c = false).

(** ** The place of the keyword in the text itself *)




(** ** Server start-up ([SQLGeniusServer.__init__]) *)

(** A computation that may raise and that logs events of type [E]; the
    same shape as [M], for the parts of the program whose effects are not
    client calls. *)
Definition T (E A : Type) : Type := list E -> outcome A * list E.

Definition tret {E A : Type} (a : A) : T E A := fun log => (Return a, log).

Definition tbind {E A B : Type} (m : T E A) (k : A -> T E B) : T E B :=
  fun log =>
    match m log with
    | (Return a, log') => k a log'
    | (Raise e, log') => (Raise e, log')
    end.

Notation "x <-- m ;; k" := (tbind m (fun x => k))
  (at level 61, m at next level, right associativity).

(** An effect with an answer, logged when it is requested. *)
Definition tcall {E A : Type} (ev : E) (answer : outcome A) : T E A :=
  fun log => (answer, (log ++ [ev])%list).

Definition emit {E : Type} (ev : E) : T E unit := tcall ev (Return tt).


(** [try: body  except Exception as e: handler e] *)
Definition ttry {E A : Type} (body : T E A) (handler : exn -> T E A) : T E A :=
  fun log =>
    match body log with
    | (Return a, log') => (Return a, log')
    | (Raise e, log') =>
        if is_Exception e then handler e log' else (Raise e, log')
    end.












(** ** The browser front end ([streamlit_app.py]) *)

(** One entry of [psutil.process_iter(['pid', 'name', 'cmdline'])]: the
    [info] mapping, where a field the system would not disclose is [None]. *)
Record proc_info : Type := {
  proc_pid : Z;
  proc_name : option string;
  proc_cmdline : option (list string)
}.

Definition nonempty (s : string) : bool :=
  match s with EmptyString => false | _ => true end.

(** [is_process_running], over the listing taken when it is called.
    Nothing in the loop body can raise on an [info] mapping, so the
    [except] clause has no effect. *)
Fixpoint is_process_running (pattern : string) (procs : list proc_info) : bool :=
  match procs with
  | [] => false
  | proc :: rest =>
      match proc_cmdline proc with
      | Some ((_ :: _) as cmdline) =>
          if existsb (fun cmd => str_in pattern cmd) (filter nonempty cmdline)
          then true
          else is_process_running pattern rest
      | _ => is_process_running pattern rest
      end
  end.

(** [os.path.join(a, b)] on a POSIX system, for two components. *)
Definition path_join (a b : string) : string :=
  if startswith b "/" then b
  else match a with
       | EmptyString => b
       | _ => if String.eqb (drop (String.length a - 1) a) "/" then a ++ b
              else a ++ "/" ++ b
       end.

(** [MCP_SERVER_PATH], given the directory of the running script. *)
Definition MCP_SERVER_PATH (script_dir : string) : string :=
  path_join script_dir "sql_mcp_server.py".

(** A child process as [start_mcp_server] sees it two seconds after the
    spawn. *)
Record child : Type := {
  poll : option Z;
  communicate : string * string
}.

Record desktop : Type := {
  process_iter : list proc_info;
  script_dir : string;
  popen : list string -> outcome child
}.

(** Text literals with characters outside ASCII are kept as their UTF-8
    bytes. *)
Inductive ui_event : Type :=
| SidebarSuccess (msg : string)
| SidebarError (msg : string)
| Popen (cmd : list string)
| Sleep (seconds : Z)
| Communicate.

Definition is_popen (ev : ui_event) : bool :=
  match ev with Popen _ => true | _ => false end.

Definition start_mcp_server (d : desktop) : T ui_event bool :=
  if is_process_running "sql_mcp_server.py" (process_iter d) then
    _ <-- emit (SidebarSuccess "🟢 MCP server is already running!") ;;
    tret true
  else
    ttry (let cmd := ["python"; MCP_SERVER_PATH (script_dir d)] in
          process <-- tcall (Popen cmd) (popen d cmd) ;;
          _ <-- emit (Sleep 2) ;;
          match poll process with
          | None =>
              _ <-- emit (SidebarSuccess "🟢 MCP server started successfully!") ;;
              tret true
          | Some _ =>
              _ <-- emit Communicate ;;
              _ <-- emit (SidebarError ("🔴 MCP server failed to start: " ++
                                        snd (communicate process))) ;;
              tret false
          end)
         (fun e =>
          _ <-- emit (SidebarError ("🔴 Error starting MCP server: " ++
                                    str_of_exn e)) ;;
          tret false).

(** [enumerate(l)] *)
Definition enumerate {A : Type} (l : list A) : list (Z * A) :=
  combine (map Z.of_nat (seq 0 (List.length l))) l.

(** The query history as it is displayed: for each
    [i, chat in enumerate(reversed(chat_history))] the number shown in the
    expander title, [len(chat_history) - i], and the entry. *)
Definition history_expanders {A : Type} (chat_history : list A) : list (Z * A) :=
  map (fun ic => (Z.of_nat (List.length chat_history) - fst ic, snd ic)%Z)
      (enumerate (rev chat_history)).

(** The statement behind the table preview button. *)
Definition sample_query (table_name : string) : string :=
  "SELECT * FROM `" ++ table_name ++ "` LIMIT 10".

(** ** More vocabulary *)

(** The character [c] appears in [s]. *)
Fixpoint has_char (c : ascii) (s : string) : bool :=
  match s with
  | EmptyString => false
  | String x s' => Ascii.eqb x c || has_char c s'
  end.

(** ** Facts about the string primitives *)

Module PyStrFacts.

Lemma append_empty_r (s : string) : s ++ "" = s.
Proof. induction s as [|c s IH]; simpl; [reflexivity | now rewrite IH]. Qed.

Lemma append_assoc3 (a b c : string) : (a ++ b) ++ c = a ++ b ++ c.
Proof. induction a as [|x a IH]; simpl; [reflexivity | now rewrite IH]. Qed.

Lemma length_append (a b : string) :
  String.length (a ++ b) = String.length a + String.length b.
Proof. induction a as [|x a IH]; simpl; [reflexivity | now rewrite IH]. Qed.

Lemma take_drop (n : nat) (s : string) : take n s ++ drop n s = s.
Proof.
  revert s; induction n as [|n IH]; intros s; simpl; [reflexivity|].
  destruct s as [|c s]; simpl; [reflexivity | now rewrite IH].
Qed.

Lemma drop_append (a b : string) : drop (String.length a) (a ++ b) = b.
Proof. induction a as [|x a IH]; simpl; [reflexivity | exact IH]. Qed.

Lemma take_append (a b : string) : take (String.length a) (a ++ b) = a.
Proof. induction a as [|x a IH]; simpl; [reflexivity | now rewrite IH]. Qed.

Lemma length_take (n : nat) (s : string) :
  n <= String.length s -> String.length (take n s) = n.
Proof.
  revert s; induction n as [|n IH]; intros s H; simpl; [reflexivity|].
  destruct s as [|c s]; simpl in *; [lia | rewrite IH; lia].
Qed.

Lemma length_drop (n : nat) (s : string) :
  String.length (drop n s) = String.length s - n.
Proof.
  revert s; induction n as [|n IH]; intros s; simpl; [lia|].
  destruct s as [|c s]; simpl; [reflexivity | apply IH].
Qed.

Lemma drop_drop (n m : nat) (s : string) : drop n (drop m s) = drop (m + n) s.
Proof.
  revert s; induction m as [|m IH]; intros s; simpl; [reflexivity|].
  destruct s as [|c s]; [destruct n; reflexivity | apply IH].
Qed.

Lemma take_take (n m : nat) (s : string) :
  n <= m -> take n (take m s) = take n s.
Proof.
  revert m s; induction n as [|n IH]; intros m s H; simpl; [reflexivity|].
  destruct m as [|m]; [lia|].
  destruct s as [|c s]; simpl; [reflexivity | rewrite IH; [reflexivity | lia]].
Qed.

Lemma take_all (n : nat) (s : string) : String.length s <= n -> take n s = s.
Proof.
  revert s; induction n as [|n IH]; intros s H.
  - destruct s; simpl in *; [reflexivity | lia].
  - destruct s as [|c s]; simpl in *; [reflexivity | rewrite IH; [reflexivity | lia]].
Qed.

Lemma append_inj_length (a a' b b' : string) :
  a ++ b = a' ++ b' -> String.length a = String.length a' -> a = a' /\ b = b'.
Proof.
  revert a'; induction a as [|x a IH]; intros [|x' a'] H Hl; simpl in *;
    try discriminate.
  - now split.
  - injection H as -> H. injection Hl as Hl.
    destruct (IH a' H Hl) as [-> ->]. now split.
Qed.

(** A prefix test succeeds exactly on the strings that extend the prefix. *)
Lemma startswith_iff (s p : string) :
  startswith s p = true <-> exists t, s = p ++ t.
Proof.
  revert s; induction p as [|b p IH]; intros s; simpl.
  - split; [intros _; now exists s | reflexivity].
  - destruct s as [|a s].
    + split; [discriminate | intros [t Ht]; discriminate].
    + rewrite andb_true_iff, Ascii.eqb_eq, IH. split.
      * intros [-> [t ->]]. now exists t.
      * intros [t Ht]. injection Ht as -> ->. split; [reflexivity | now exists t].
Qed.

Lemma startswith_append (p t : string) : startswith (p ++ t) p = true.
Proof. apply startswith_iff. now exists t. Qed.

Lemma startswith_trans (s p q : string) :
  startswith s p = true -> startswith p q = true -> startswith s q = true.
Proof.
  rewrite !startswith_iff. intros [t ->] [u ->].
  exists (u ++ t). apply append_assoc3.
Qed.

(** An occurrence, read on the code's prefix test. *)
Lemma occurs_at_iff (sub s : string) (n : nat) :
  occurs_at sub s n <->
  n <= String.length s /\ startswith (drop n s) sub = true.
Proof.
  unfold occurs_at. split.
  - intros (a & b & -> & <-). split.
    + rewrite length_append. lia.
    + rewrite drop_append. apply startswith_append.
  - intros [Hle H]. apply startswith_iff in H as [t Ht].
    exists (take n s), t. split.
    + rewrite <- Ht. symmetry. apply take_drop.
    + now apply length_take.
Qed.

Lemma occurs_at_substring (sub s : string) (n : nat) :
  occurs_at sub s n -> substring_of sub s.
Proof. intros (a & b & H & _). now exists a, b. Qed.

Lemma substring_occurs (sub s : string) :
  substring_of sub s -> exists n, occurs_at sub s n.
Proof. intros (a & b & H). exists (String.length a), a, b. now split. Qed.

Lemma occurs_at_S (sub s : string) (c : ascii) (n : nat) :
  occurs_at sub (String c s) (S n) <-> occurs_at sub s n.
Proof. rewrite !occurs_at_iff. simpl. intuition lia. Qed.

Lemma occurs_at_0 (sub s : string) :
  occurs_at sub s 0 <-> startswith s sub = true.
Proof. rewrite occurs_at_iff. simpl. intuition lia. Qed.

(** [index_of] returns the first occurrence and nothing else. *)
Lemma index_of_first (s sub : string) (n : nat) :
  index_of s sub = Some n <-> first_at sub s n.
Proof.
  unfold first_at. revert n. induction s as [|c s IH]; intros n.
  - simpl. destruct (startswith "" sub) eqn:E.
    + split.
      * intros [= <-]. split; [now apply occurs_at_0 | intros m Hm; lia].
      * intros [Ho Hmin]. destruct n as [|n]; [reflexivity|].
        exfalso. apply (Hmin 0); [lia | now apply occurs_at_0].
    + split; [discriminate|]. intros [Ho _]. exfalso.
      apply occurs_at_iff in Ho as [Hle Ho]. simpl in Hle.
      assert (n = 0) by lia. subst n. simpl in Ho. congruence.
  - cbn [index_of]. destruct (startswith (String c s) sub) eqn:E.
    + split.
      * intros [= <-]. split; [now apply occurs_at_0 | intros m Hm; lia].
      * intros [Ho Hmin]. destruct n as [|n]; [reflexivity|].
        exfalso. apply (Hmin 0); [lia | now apply occurs_at_0].
    + destruct n as [|n].
      * split.
        -- destruct (index_of s sub); discriminate.
        -- intros [Ho _]. apply occurs_at_0 in Ho. congruence.
      * specialize (IH n). split.
        -- intros H. destruct (index_of s sub) as [k|] eqn:Ek; [|discriminate].
           injection H as ->. destruct IH as [[Ho Hmin] _]; [reflexivity|].
           split; [now apply occurs_at_S|].
           intros [|m] Hm Hc.
           ++ apply occurs_at_0 in Hc. congruence.
           ++ apply occurs_at_S in Hc. apply (Hmin m); [lia | exact Hc].
        -- intros [Ho Hmin]. destruct IH as [_ IH].
           rewrite IH; [reflexivity|]. split; [now apply occurs_at_S in Ho|].
           intros m Hm Hc. apply (Hmin (S m)); [lia | now apply occurs_at_S].
Qed.

Lemma index_of_total (s sub : string) (n : nat) :
  occurs_at sub s n -> exists k, index_of s sub = Some k /\ k <= n.
Proof.
  revert n. induction s as [|c s IH]; intros n Ho.
  - apply occurs_at_iff in Ho as [Hle Ho]. simpl in Hle.
    assert (n = 0) by lia. subst n. simpl in Ho.
    exists 0. simpl. rewrite Ho. split; [reflexivity | lia].
  - cbn [index_of]. destruct (startswith (String c s) sub) eqn:E.
    + exists 0. split; [reflexivity | lia].
    + destruct n as [|n]; [apply occurs_at_0 in Ho; congruence|].
      apply occurs_at_S in Ho. destruct (IH n Ho) as (k & -> & Hk).
      exists (S k). split; [reflexivity | lia].
Qed.

Lemma index_of_None (s sub : string) :
  index_of s sub = None <-> ~ substring_of sub s.
Proof.
  split.
  - intros H Hs. apply substring_occurs in Hs as [n Hn].
    apply index_of_total in Hn as (k & Hk & _). congruence.
  - intros H. destruct (index_of s sub) as [k|] eqn:E; [|reflexivity].
    exfalso. apply H. apply index_of_first in E as [Ho _].
    eapply occurs_at_substring; eassumption.
Qed.

(** Python's [sub in s] is the substring relation. *)
Lemma str_in_iff (sub s : string) :
  str_in sub s = true <-> substring_of sub s.
Proof.
  unfold str_in. destruct (index_of s sub) as [k|] eqn:E.
  - split; [|reflexivity]. intros _. apply index_of_first in E as [Ho _].
    eapply occurs_at_substring; eassumption.
  - split; [discriminate|]. intros H. apply index_of_None in E. contradiction.
Qed.

Lemma str_in_false_iff (sub s : string) :
  str_in sub s = false <-> ~ substring_of sub s.
Proof.
  rewrite <- str_in_iff. destruct (str_in sub s); split; congruence.
Qed.

Lemma find_index_of (s sub : string) (n : nat) :
  index_of s sub = Some n -> find s sub = Z.of_nat n.
Proof. unfold find. now intros ->. Qed.

Lemma find_not_found (s sub : string) :
  find s sub = (-1)%Z <-> index_of s sub = None.
Proof.
  unfold find. destruct (index_of s sub); split; try congruence; lia.
Qed.

(** *** [strip] *)

Lemma lstrip_spec (s : string) :
  exists l, s = l ++ lstrip s /\ all_space l = true /\
            forall c t, lstrip s = String c t -> isspace c = false.
Proof.
  induction s as [|c s (l & Hl & Hsp & Hfirst)]; simpl.
  - exists "". repeat split. discriminate.
  - destruct (isspace c) eqn:E.
    + exists (String c l). simpl. rewrite E, Hsp, <- Hl. repeat split. exact Hfirst.
    + exists "". repeat split. now intros c' t [= <- _].
Qed.

Lemma rstrip_spec (s : string) :
  exists t, s = rstrip s ++ t /\ all_space t = true /\
            forall u c, rstrip s = u ++ String c "" -> isspace c = false.
Proof.
  induction s as [|c s (t & Ht & Hsp & Hlast)]; simpl.
  - exists "". repeat split. intros [|x u] c; discriminate.
  - destruct (rstrip s) as [|a r] eqn:Er.
    + simpl in Ht. subst t. destruct (isspace c) eqn:E.
      * exists (String c s). simpl. rewrite E, Hsp. repeat split.
        intros [|x u] c'; discriminate.
      * exists s. repeat split; [exact Hsp|].
        intros [|x u] c'; simpl.
        -- now intros [= <-].
        -- intros [= _ H]. destruct u; discriminate.
    + exists t. repeat split; [simpl in Ht |- *; congruence | exact Hsp |].
      intros [|x u] c'; simpl; [discriminate|].
      intros [= _ H]. now apply (Hlast u c').
Qed.

(** [strip] removes whitespace, and only whitespace, from both ends. *)
Lemma strip_spec (s : string) :
  exists l t, s = l ++ strip s ++ t /\
              all_space l = true /\ all_space t = true /\ trimmed (strip s).
Proof.
  unfold strip. destruct (lstrip_spec s) as (l & Hl & Hsl & Hfirst).
  destruct (rstrip_spec (lstrip s)) as (t & Ht & Hst & Hlast).
  exists l, t. split; [now rewrite <- Ht|]. repeat split; try assumption.
  intros c u E. rewrite E in Ht. simpl in Ht. now apply (Hfirst c (u ++ t)).
Qed.

End PyStrFacts.

(** ** Facts about [split], [upper] and the helpers of the heuristic *)

Module HeuristicFacts.
Import PyStrFacts.
Local Open Scope nat_scope.

Lemma map_chars_append (f : ascii -> ascii) (a b : string) :
  map_chars f (a ++ b) = map_chars f a ++ map_chars f b.
Proof. induction a as [|x a IH]; simpl; [reflexivity | now rewrite IH]. Qed.


Lemma substring_of_trans (a b c : string) :
  substring_of a b -> substring_of b c -> substring_of a c.
Proof.
  intros (x & y & ->) (u & v & ->). exists (u ++ x), (y ++ v).
  now rewrite !append_assoc3.
Qed.

Lemma upper_append (a b : string) : upper (a ++ b) = upper a ++ upper b.
Proof.
  induction a as [|x a IH]; cbn [append upper]; [reflexivity|].
  now rewrite IH, append_assoc3.
Qed.

Lemma substring_of_upper (a b : string) :
  substring_of a b -> substring_of (upper a) (upper b).
Proof.
  intros (x & y & ->). exists (upper x), (upper y).
  now rewrite !upper_append.
Qed.

Lemma isascii_append (a b : string) :
  isascii (a ++ b) = isascii a && isascii b.
Proof.
  induction a as [|x a IH]; cbn [append isascii]; [reflexivity|].
  now rewrite IH, andb_assoc.
Qed.

Lemma isascii_substring (a b : string) :
  substring_of a b -> isascii b = true -> isascii a = true.
Proof.
  intros (x & y & ->). rewrite !isascii_append, !andb_true_iff. tauto.
Qed.

(** On ASCII text [upper] works character by character and keeps every
    offset. *)
Lemma upper_isascii (s : string) :
  isascii s = true -> upper s = map_chars upper_char s.
Proof.
  induction s as [|c s IH]; cbn [isascii upper map_chars]; [reflexivity|].
  intros H. apply andb_true_iff in H as [Hc Hs]. rewrite (IH Hs).
  unfold upper_cp. destruct (Ascii.eqb c "223") eqn:E; [|reflexivity].
  apply Ascii.eqb_eq in E. subst c. discriminate Hc.
Qed.

(** The keyword seen inside a part of the text is seen in the whole text. *)
Lemma mentions_select_mono (seg s : string) :
  substring_of seg s -> mentions_select seg -> mentions_select s.
Proof.
  unfold mentions_select. intros Hs Hm.
  eapply substring_of_trans; [exact Hm | now apply substring_of_upper].
Qed.

Lemma length_take_le (n : nat) (s : string) : String.length (take n s) <= n.
Proof.
  revert s; induction n as [|n IH]; intros s; simpl; [lia|].
  destruct s as [|c s]; simpl; [lia | specialize (IH s); lia].
Qed.

Lemma take_append_ge (a b : string) (k : nat) :
  take (String.length a + k) (a ++ b) = a ++ take k b.
Proof. induction a as [|x a IH]; simpl; [reflexivity | now rewrite IH]. Qed.

Lemma occurs_at_take (p s : string) (i m : nat) :
  occurs_at p (take i s) m -> occurs_at p s m /\ m + String.length p <= i.
Proof.
  intros (a & b & H & Hl). split.
  - exists a, (b ++ drop i s). split; [|exact Hl].
    rewrite <- (take_drop i s) at 1. rewrite H. now rewrite !append_assoc3.
  - pose proof (length_take_le i s) as Hle.
    rewrite H, !length_append in Hle. lia.
Qed.

Lemma occurs_at_take_intro (p s : string) (i m : nat) :
  occurs_at p s m -> m + String.length p <= i -> occurs_at p (take i s) m.
Proof.
  intros (a & b & -> & <-) Hle.
  exists a, (take (i - String.length a - String.length p) b). split; [|reflexivity].
  replace i with (String.length a + (String.length p + (i - String.length a - String.length p)))
    at 1 by lia.
  now rewrite !take_append_ge.
Qed.

Lemma occurs_at_prefix (p q s : string) (n : nat) :
  startswith p q = true -> occurs_at p s n -> occurs_at q s n.
Proof.
  intros Hpq Ho. apply occurs_at_iff in Ho as [Hle Ho]. apply occurs_at_iff.
  split; [exact Hle | eapply startswith_trans; eassumption].
Qed.

(** *** [split] *)

Lemma index_of_nonempty (s sep : string) (i : nat) :
  sep <> "" -> index_of s sep = Some i -> i + String.length sep <= String.length s
  /\ 0 < String.length sep.
Proof.
  intros Hsep H. apply index_of_first in H as [(a & b & -> & <-) _].
  rewrite !length_append. destruct sep; [congruence | simpl; lia].
Qed.

Lemma split_fuel_enough (sep : string) (f1 f2 : nat) (s : string) :
  sep <> "" -> String.length s <= f1 -> String.length s <= f2 ->
  split_fuel f1 s sep = split_fuel f2 s sep.
Proof.
  intros Hsep. revert f2 s. induction f1 as [|f1 IH]; intros f2 s H1 H2.
  - destruct f2 as [|f2]; [reflexivity|]. simpl.
    destruct (index_of s sep) as [i|] eqn:E; [|reflexivity].
    apply index_of_nonempty in E; [lia | exact Hsep].
  - simpl. destruct (index_of s sep) as [i|] eqn:E; [|destruct f2; simpl; now rewrite E].
    pose proof (index_of_nonempty _ _ _ Hsep E) as [Hi Hp].
    destruct f2 as [|f2]; [lia|]. simpl. rewrite E. f_equal.
    apply IH; rewrite length_drop; lia.
Qed.

(** The unfolding equations of [str.split] on a non-empty separator. *)
Lemma split_not_found (s sep : string) :
  sep <> "" -> index_of s sep = None -> split s sep = Return [s].
Proof.
  intros Hsep E. unfold split. destruct sep; [congruence|].
  destruct (String.length s); simpl; now rewrite E.
Qed.

Lemma split_found (s sep : string) (i : nat) :
  sep <> "" -> index_of s sep = Some i ->
  exists more,
    split (drop (i + String.length sep) s) sep = Return more /\
    split s sep = Return (take i s :: more).
Proof.
  intros Hsep E. pose proof (index_of_nonempty _ _ _ Hsep E) as [Hi Hp].
  unfold split. destruct sep as [|c sep]; [congruence|].
  eexists. split; [reflexivity|]. f_equal.
  destruct (String.length s) as [|n] eqn:En; [lia|].
  cbn [split_fuel]. rewrite E. f_equal.
  apply split_fuel_enough; [exact Hsep | | lia].
  rewrite length_drop. lia.
Qed.

Lemma split_head (s sep : string) :
  sep <> "" -> exists more, split s sep = Return (upto s sep :: more).
Proof.
  intros Hsep. unfold upto. destruct (index_of s sep) as [i|] eqn:E.
  - destruct (split_found _ _ _ Hsep E) as (more & _ & H). now exists more.
  - exists []. now apply split_not_found.
Qed.

(** Every piece of a split is a part of the text. *)
Lemma split_fuel_substring (sep : string) (fuel : nat) (s seg : string) :
  In seg (split_fuel fuel s sep) -> substring_of seg s.
Proof.
  revert s. induction fuel as [|fuel IH]; intros s; simpl;
    destruct (index_of s sep) as [i|] eqn:E; simpl.
  1,2,4: intros [<-|[]]; exists "", ""; simpl; now rewrite append_empty_r.
  intros [<-|H].
  - exists "", (drop i s). simpl. symmetry. apply take_drop.
  - apply IH in H. eapply substring_of_trans; [exact H|].
    exists (take (i + String.length sep) s), "".
    rewrite append_empty_r. symmetry. apply take_drop.
Qed.

Lemma split_substring (s sep seg : string) (blocks : list string) :
  split s sep = Return blocks -> In seg blocks -> substring_of seg s.
Proof.
  unfold split. destruct sep; [discriminate|]. intros [= <-].
  apply split_fuel_substring.
Qed.

(** More than one piece means the separator was found. *)
Lemma split_two_found (s sep : string) (blocks : list string) :
  split s sep = Return blocks -> 2 <= List.length blocks -> str_in sep s = true.
Proof.
  unfold split, str_in. destruct sep as [|c sep]; [discriminate|]. intros [= <-].
  destruct (index_of s (String c sep)) eqn:E; [reflexivity|].
  destruct (String.length s); simpl; rewrite E; simpl; lia.
Qed.

(** *** The tagged block *)

Lemma fence_prefix_of_tag : startswith fence_sql fence = true.
Proof. reflexivity. Qed.

(** Cutting at the next tag and then at the next fence is cutting at the
    next fence, unless a further tag starts one or two characters after the
    start of that fence. *)
Lemma upto_tag_then_fence (rest : string) (j : nat) :
  first_at fence rest j ->
  ~ occurs_at fence_sql rest (j + 1) ->
  ~ occurs_at fence_sql rest (j + 2) ->
  upto (upto rest fence_sql) fence = take j rest.
Proof.
  intros Hj H1 H2. pose proof Hj as [Hoj Hminj].
  assert (Ej : index_of rest fence = Some j) by now apply index_of_first.
  unfold upto at 2. destruct (index_of rest fence_sql) as [i|] eqn:Ei.
  - apply index_of_first in Ei as [Hoi _].
    pose proof (occurs_at_prefix _ _ _ _ fence_prefix_of_tag Hoi) as Hfi.
    assert (Hji : j <= i).
    { destruct (Nat.le_gt_cases j i); [assumption|]. exfalso. now apply (Hminj i). }
    assert (Hcase : i = j \/ j + 3 <= i).
    { destruct (Nat.eq_dec i (j + 1)) as [->|]; [contradiction|].
      destruct (Nat.eq_dec i (j + 2)) as [->|]; [contradiction|]. lia. }
    unfold upto. destruct Hcase as [->|Hge].
    + assert (E : index_of (take j rest) fence = None).
      { apply index_of_None. intros Hs. apply substring_occurs in Hs as [m Hm].
        apply occurs_at_take in Hm as [Hm Hlen]. simpl in Hlen.
        apply (Hminj m); [lia | exact Hm]. }
      now rewrite E.
    + assert (E : index_of (take i rest) fence = Some j).
      { apply index_of_first. split.
        - apply occurs_at_take_intro; [exact Hoj | simpl; lia].
        - intros m Hm Hc. apply occurs_at_take in Hc as [Hc _].
          now apply (Hminj m). }
      rewrite E. apply take_take. lia.
  - unfold upto. now rewrite Ej.
Qed.

Lemma upto_tag_no_fence (rest : string) :
  ~ substring_of fence rest -> upto (upto rest fence_sql) fence = rest.
Proof.
  intros H. assert (E : index_of rest fence_sql = None).
  { apply index_of_None. intros Hs. apply H.
    eapply substring_of_trans; [|exact Hs]. now exists "", "sql". }
  unfold upto. rewrite E. apply index_of_None in H. now rewrite H.
Qed.

(** What the first branch of the heuristic computes. *)
Lemma extract_body_tagged (r : string) (i : nat) :
  index_of r fence_sql = Some i ->
  extract_body r =
  Return (Some (strip (upto (upto (drop (i + 6) r) fence_sql) fence))).
Proof.
  intros E. unfold extract_body, str_in. rewrite E.
  assert (Hsep : fence_sql <> "") by discriminate.
  destruct (split_found _ _ _ Hsep E) as (more & Hmore & ->).
  change (String.length fence_sql) with 6 in Hmore.
  destruct (split_head (drop (i + 6) r) fence_sql Hsep) as (m1 & Hm1).
  rewrite Hm1 in Hmore. injection Hmore as <-.
  cbn [obind getitem nth_error].
  assert (Hf : fence <> "") by discriminate.
  destruct (split_head (upto (drop (i + 6) r) fence_sql) fence Hf) as (m2 & ->).
  reflexivity.
Qed.

(** *** The loop over the fenced segments *)

Lemma scan_blocks_hit (blocks : list string) (seg : string) (k : nat) :
  forall fuel start,
    List.length blocks <= fuel + start ->
    nth_error blocks (start + 2 * k) = Some seg ->
    str_in "SELECT" (upper seg) = true ->
    (forall j b, j < k -> nth_error blocks (start + 2 * j) = Some b ->
                 str_in "SELECT" (upper b) = false) ->
    scan_blocks blocks (range_fuel fuel start (List.length blocks) 2)
    = Return (Some (clean_block seg)).
Proof.
  induction k as [|k IH]; intros fuel start Hfuel Hnth Hsel Hbefore.
  - replace (start + 2 * 0) with start in Hnth by lia.
    assert (Hlt : start < List.length blocks)
      by (apply nth_error_Some; congruence).
    destruct fuel as [|fuel]; [lia|]. cbn [range_fuel].
    apply Nat.ltb_lt in Hlt. rewrite Hlt. cbn [scan_blocks].
    unfold getitem. rewrite Hnth. cbn [obind]. now rewrite Hsel.
  - assert (Hlt : start + 2 * S k < List.length blocks)
      by (apply nth_error_Some; congruence).
    destruct fuel as [|fuel]; [lia|]. cbn [range_fuel].
    assert (Hlt0 : (start <? List.length blocks) = true) by (apply Nat.ltb_lt; lia).
    rewrite Hlt0. cbn [scan_blocks]. unfold getitem.
    destruct (nth_error blocks start) as [b|] eqn:Eb.
    2:{ apply nth_error_None in Eb. lia. }
    cbn [obind]. rewrite (Hbefore 0 b); [|lia|now replace (start + 2 * 0) with start by lia].
    apply IH.
    + lia.
    + now replace (start + 2 + 2 * k) with (start + 2 * S k) by lia.
    + exact Hsel.
    + intros j b' Hj Hb'. apply (Hbefore (S j) b'); [lia|].
      now replace (start + 2 * S j) with (start + 2 + 2 * j) by lia.
Qed.

Lemma scan_blocks_miss (blocks : list string) :
  forall fuel start,
    (forall j b, nth_error blocks (start + 2 * j) = Some b ->
                 str_in "SELECT" (upper b) = false) ->
    scan_blocks blocks (range_fuel fuel start (List.length blocks) 2)
    = Return None.
Proof.
  induction fuel as [|fuel IH]; intros start Hnone; [reflexivity|].
  cbn [range_fuel]. destruct (start <? List.length blocks) eqn:Hlt; [|reflexivity].
  apply Nat.ltb_lt in Hlt. cbn [scan_blocks]. unfold getitem.
  destruct (nth_error blocks start) as [b|] eqn:Eb.
  2:{ apply nth_error_None in Eb. lia. }
  cbn [obind]. rewrite (Hnone 0 b); [|now replace (start + 2 * 0) with start by lia].
  apply IH. intros j b' Hb'. apply (Hnone (S j) b').
  now replace (start + 2 * S j) with (start + 2 + 2 * j) by lia.
Qed.

(** The loop reads the list only at the indices it is given. *)
Lemma scan_blocks_ext (b1 b2 : list string) (idxs : list nat) :
  (forall i, In i idxs -> nth_error b1 i = nth_error b2 i) ->
  scan_blocks b1 idxs = scan_blocks b2 idxs.
Proof.
  induction idxs as [|i idxs IH]; intros H; [reflexivity|].
  cbn [scan_blocks]. unfold getitem. rewrite (H i) by now left.
  destruct (nth_error b2 i) as [b|]; [|reflexivity]. cbn [obind].
  destruct (str_in "SELECT" (upper b)); [reflexivity|].
  apply IH. intros j Hj. apply H. now right.
Qed.

(** [range(start, stop, 2)] holds the numbers [start + 2 j] below [stop]. *)
Lemma range_fuel_In (fuel start stop i : nat) :
  In i (range_fuel fuel start stop 2) ->
  i < stop /\ exists j, i = start + 2 * j.
Proof.
  revert start. induction fuel as [|fuel IH]; intros start; [intros []|].
  cbn [range_fuel]. destruct (start <? stop) eqn:Hlt; [|intros []].
  apply Nat.ltb_lt in Hlt. intros [<-|H].
  - split; [exact Hlt | exists 0; lia].
  - apply IH in H as [Hi [j ->]]. split; [exact Hi | exists (S j); lia].
Qed.


(** *** The keyword rule *)

Lemma fold_min_spec (l : list Z) (x : Z) :
  In (fold_left Z.min l x) (x :: l) /\
  forall y, In y (x :: l) -> (fold_left Z.min l x <= y)%Z.
Proof.
  revert x. induction l as [|a l IH]; intros x; simpl.
  - split; [now left | intros y [<-|[]]; lia].
  - destruct (IH (Z.min x a)) as [Hin Hle]. split.
    + destruct Hin as [Hin|Hin]; [|now right; right].
      rewrite <- Hin. destruct (Z.min_spec x a) as [[_ ->]|[_ ->]]; auto.
    + intros y [<-|[<-|Hy]].
      * specialize (Hle (Z.min x a) (or_introl eq_refl)). lia.
      * specialize (Hle (Z.min x a) (or_introl eq_refl)). lia.
      * apply Hle. now right.
Qed.

Lemma end_positions_In (q : string) (z : Z) :
  In z (end_positions q) <->
  exists mk c, In mk end_markers /\ index_of q mk = Some c /\ z = Z.of_nat c.
Proof.
  unfold end_positions. rewrite filter_In, in_map_iff. split.
  - intros [(mk & <- & Hmk) Hz]. unfold find in *.
    destruct (index_of q mk) as [c|] eqn:E; [|discriminate].
    now exists mk, c.
  - intros (mk & c & Hmk & E & ->). split.
    + exists mk. split; [now apply find_index_of | exact Hmk].
    + apply negb_true_iff, Z.eqb_neq. lia.
Qed.

Lemma slice_from_nat (s : string) (n : nat) : slice_from s (Z.of_nat n) = drop n s.
Proof.
  unfold slice_from. destruct (Z.of_nat n <? 0)%Z eqn:E; [apply Z.ltb_lt in E; lia|].
  now rewrite Nat2Z.id.
Qed.

Lemma slice_to_nat (s : string) (n : nat) : slice_to s (Z.of_nat n) = take n s.
Proof.
  unfold slice_to. destruct (Z.of_nat n <? 0)%Z eqn:E; [apply Z.ltb_lt in E; lia|].
  now rewrite Nat2Z.id.
Qed.

(** The smallest offset kept by the source is the place of the earliest
    end marker. *)
Lemma min_position_earliest (q : string) (x : Z) (rest : list Z) :
  end_positions q = x :: rest ->
  exists c, fold_left Z.min rest x = Z.of_nat c /\ earliest_of end_markers q c.
Proof.
  intros E. destruct (fold_min_spec rest x) as [Hin Hle].
  rewrite <- E in Hin, Hle.
  apply end_positions_In in Hin as (mk & c & Hmk & Ec & Hc).
  exists c. split; [exact Hc|]. split.
  - exists mk. split; [exact Hmk|]. now apply index_of_first in Ec as [Ho _].
  - intros c' mk' Hlt Hmk' Ho.
    apply index_of_total in Ho as (k & Ek & Hk).
    assert (Hk' : In (Z.of_nat k) (end_positions q))
      by (apply end_positions_In; now exists mk', k).
    apply Hle in Hk'. lia.
Qed.

Lemma select_tail_spec (r : string) (p : nat) :
  index_of (upper r) "SELECT" = Some p ->
  ((forall mk, In mk end_markers -> ~ substring_of mk (drop p r)) ->
   select_tail r = Return (strip (drop p r))) /\
  ((exists mk, In mk end_markers /\ substring_of mk (drop p r)) ->
   exists c, earliest_of end_markers (drop p r) c /\
             select_tail r = Return (strip (take c (drop p r)))).
Proof.
  intros Ep. unfold select_tail. rewrite (find_index_of _ _ _ Ep), slice_from_nat.
  fold (end_positions (drop p r)).
  destruct (end_positions (drop p r)) as [|x rest] eqn:E; split.
  - reflexivity.
  - intros (mk & Hmk & Hs). exfalso.
    apply substring_occurs in Hs as [n Hn].
    apply index_of_total in Hn as (k & Ek & _).
    assert (Hin : In (Z.of_nat k) (end_positions (drop p r)))
      by (apply end_positions_In; now exists mk, k).
    rewrite E in Hin. destruct Hin.
  - intros Hnone. exfalso.
    assert (Hin : In x (end_positions (drop p r)))
      by (rewrite E; now left).
    apply end_positions_In in Hin as (mk & c & Hmk & Ec & _).
    apply (Hnone mk Hmk). apply index_of_first in Ec as [Ho _].
    eapply occurs_at_substring; eassumption.
  - intros _. destruct (min_position_earliest _ _ _ E) as (c & Hc & Hearly).
    exists c. split; [exact Hearly|].
    cbn [py_min obind]. now rewrite Hc, slice_to_nat.
Qed.

(** *** The three branches, as the heuristic takes them *)

Lemma extract_rule1 (r : string) (i : nat) :
  index_of r fence_sql = Some i ->
  _extract_sql_query r =
  Return (Some (strip (upto (upto (drop (i + 6) r) fence_sql) fence))).
Proof.
  intros E. unfold _extract_sql_query. now rewrite (extract_body_tagged _ _ E).
Qed.

Lemma extract_rule2 (r : string) (code_blocks : list string) (k : nat)
      (seg : string) :
  str_in fence_sql r = false ->
  split r fence = Return code_blocks ->
  nth_error code_blocks (2 * k + 1) = Some seg ->
  str_in "SELECT" (upper seg) = true ->
  (forall j b, j < k -> nth_error code_blocks (2 * j + 1) = Some b ->
               str_in "SELECT" (upper b) = false) ->
  _extract_sql_query r = Return (Some (clean_block seg)).
Proof.
  intros Htag Hsplit Hnth Hsel Hbefore.
  assert (Hlen : 2 <= List.length code_blocks).
  { assert (2 * k + 1 < List.length code_blocks)
      by (apply nth_error_Some; congruence). lia. }
  assert (Hfence : str_in fence r = true) by (eapply split_two_found; eassumption).
  assert (Hr : str_in "SELECT" (upper r) = true).
  { apply str_in_iff. eapply mentions_select_mono; [|apply str_in_iff; exact Hsel].
    eapply split_substring; [exact Hsplit|]. eapply nth_error_In; exact Hnth. }
  unfold _extract_sql_query, extract_body.
  rewrite Htag, Hfence, Hr, Hsplit. cbn [andb obind]. unfold range.
  rewrite (scan_blocks_hit code_blocks seg k).
  - reflexivity.
  - lia.
  - now replace (1 + 2 * k) with (2 * k + 1) by lia.
  - exact Hsel.
  - intros j b Hj Hb. apply (Hbefore j b Hj).
    now replace (2 * j + 1) with (1 + 2 * j) by lia.
Qed.

Lemma extract_rule2_miss (r : string) (code_blocks : list string) :
  str_in fence_sql r = false ->
  str_in fence r = true ->
  str_in "SELECT" (upper r) = true ->
  split r fence = Return code_blocks ->
  (forall j b, nth_error code_blocks (2 * j + 1) = Some b ->
               str_in "SELECT" (upper b) = false) ->
  extract_body r = Raise (UnboundLocalError "query") /\
  _extract_sql_query r = Return None.
Proof.
  intros Htag Hfence Hr Hsplit Hnone.
  assert (E : extract_body r = Raise (UnboundLocalError "query")).
  { unfold extract_body. rewrite Htag, Hfence, Hr, Hsplit. cbn [andb obind].
    unfold range. rewrite scan_blocks_miss; [reflexivity|].
    intros j b Hb. apply (Hnone j b).
    now replace (2 * j + 1) with (1 + 2 * j) by lia. }
  split; [exact E|]. unfold _extract_sql_query. now rewrite E.
Qed.


Lemma extract_rule4 (r : string) :
  str_in fence_sql r = false ->
  str_in "SELECT" (upper r) = false ->
  _extract_sql_query r = Return None.
Proof.
  intros Htag Hr. unfold _extract_sql_query, extract_body.
  rewrite Htag, Hr, andb_false_r. reflexivity.
Qed.

(** *** The keyword in ASCII text *)

Lemma map_chars_take (f : ascii -> ascii) (n : nat) (s : string) :
  map_chars f (take n s) = take n (map_chars f s).
Proof.
  revert s. induction n as [|n IH]; intros [|c s]; simpl; try reflexivity.
  now rewrite IH.
Qed.

Lemma map_chars_drop (f : ascii -> ascii) (n : nat) (s : string) :
  map_chars f (drop n s) = drop n (map_chars f s).
Proof.
  revert s. induction n as [|n IH]; intros [|c s]; simpl; try reflexivity.
  apply IH.
Qed.


Lemma isascii_take (n : nat) (s : string) :
  isascii s = true -> isascii (take n s) = true.
Proof.
  apply isascii_substring. exists "", (drop n s). symmetry. apply take_drop.
Qed.

Lemma isascii_drop (n : nat) (s : string) :
  isascii s = true -> isascii (drop n s) = true.
Proof.
  apply isascii_substring. exists (take n s), "".
  rewrite append_empty_r. symmetry. apply take_drop.
Qed.




(** *** The keyword after an ASCII beginning *)







Lemma first_at_unique (sub s : string) (p n : nat) :
  first_at sub s p -> first_at sub s n -> n = p.
Proof.
  intros Hp Hn. apply index_of_first in Hp, Hn. congruence.
Qed.


End HeuristicFacts.

(** ** The safety gate and the extraction heuristic: main results *)

Import PyStrFacts HeuristicFacts.
Local Open Scope nat_scope.

(** The gate rejects exactly on a denylist word inside the lowercased text. *)
Lemma gate_rejects_iff :
  forall q,
    validate_query q = false <->
    exists keyword, In keyword dangerous_keywords /\ substring_of keyword (lower q).
Proof.
  intros q. unfold validate_query. rewrite negb_false_iff, existsb_exists. split.
  - intros (k & Hk & Hin). exists k. split; [exact Hk | now apply str_in_iff].
  - intros (k & Hk & Hs). exists k. split; [exact Hk | now apply str_in_iff].
Qed.

(** C2. [validate_query] rejects a query exactly when its lowercased text
    contains one of the six denylist words as a substring; it rejects
    "DROP TABLE x", "create table x(...)" and "SELECT created_at FROM
    events", and accepts "SELECT * FROM sales LIMIT 10". *)
Theorem validate_query_denylist :
  (forall q,
      validate_query q = false <->
      exists keyword,
        In keyword ["insert"; "update"; "delete"; "drop"; "alter"; "create"] /\
        substring_of keyword (lower q)) /\
  validate_query "DROP TABLE x" = false /\
  validate_query "create table x(...)" = false /\
  validate_query "SELECT created_at FROM events" = false /\
  validate_query "SELECT * FROM sales LIMIT 10" = true.
Proof.
  split; [exact gate_rejects_iff | repeat split; reflexivity].
Qed.

(** C4, as amended.  When the text holds the tag [```sql], first at the end
    of [pre], extraction returns the trimmed text that follows it: all of
    it when no fence follows, and otherwise the part [body] before the next
    fence, provided no further tag starts one or two characters after the
    start of that fence. *)
Theorem extract_tagged_block (r pre rest : string) :
  r = pre ++ fence_sql ++ rest ->
  first_at fence_sql r (String.length pre) ->
  (~ substring_of fence rest ->
   _extract_sql_query r = Return (Some (strip rest))) /\
  (forall body after,
      rest = body ++ fence ++ after ->
      first_at fence rest (String.length body) ->
      ~ occurs_at fence_sql rest (String.length body + 1) ->
      ~ occurs_at fence_sql rest (String.length body + 2) ->
      _extract_sql_query r = Return (Some (strip body))).
Proof.
  intros Hr Hfirst. apply index_of_first in Hfirst as E.
  assert (Hrest : drop (String.length pre + 6) r = rest).
  { rewrite Hr, <- drop_drop, drop_append. apply (drop_append fence_sql rest). }
  rewrite (extract_rule1 _ _ E), Hrest. split.
  - intros Hno. now rewrite upto_tag_no_fence.
  - intros body after Hbody Hj H1 H2.
    rewrite (upto_tag_then_fence rest (String.length body) Hj H1 H2).
    now rewrite Hbody, take_append.
Qed.

Lemma extract_tagged_block_witness :
  _extract_sql_query
    ("Here: ```sql" ++ LF ++ "SELECT name FROM users" ++ LF ++
     "``` It runs SELECT over users.")
  = Return (Some "SELECT name FROM users").
Proof.
  refine (proj2 (extract_tagged_block
                   ("Here: ```sql" ++ LF ++ "SELECT name FROM users" ++ LF ++
                    "``` It runs SELECT over users.")
                   "Here: "
                   (LF ++ "SELECT name FROM users" ++ LF ++
                    "``` It runs SELECT over users.")
                   eq_refl _)
                (LF ++ "SELECT name FROM users" ++ LF)
                " It runs SELECT over users." eq_refl _ _ _).
  - apply index_of_first. reflexivity.
  - apply index_of_first. reflexivity.
  - intros H. apply occurs_at_iff in H as [_ H]. discriminate H.
  - intros H. apply occurs_at_iff in H as [_ H]. discriminate H.
Defined.

(** C4 as first stated fails: the block after the tag below is
    [" SELECT 1 "], ended by the first fence that follows, yet a later tag
    that overlaps that fence makes extraction keep a stray backtick. *)
Lemma extract_tagged_block_overlap :
  "```sql SELECT 1 ````sql x" = "" ++ fence_sql ++ " SELECT 1 ````sql x" /\
  first_at fence_sql "```sql SELECT 1 ````sql x" 0 /\
  " SELECT 1 ````sql x" = " SELECT 1 " ++ fence ++ "`sql x" /\
  first_at fence " SELECT 1 ````sql x" (String.length " SELECT 1 ") /\
  _extract_sql_query "```sql SELECT 1 ````sql x" = Return (Some "SELECT 1 `") /\
  _extract_sql_query "```sql SELECT 1 ````sql x"
  <> Return (Some (strip " SELECT 1 ")).
Proof.
  repeat split; try reflexivity; try discriminate.
  - now exists "", " SELECT 1 ````sql x".
  - intros m Hm. lia.
  - now exists " SELECT 1 ", "`sql x".
  - intros m Hm Ho. simpl in Hm.
    assert (E : index_of " SELECT 1 ````sql x" fence = Some 10) by reflexivity.
    apply index_of_first in E as [_ Hmin]. now apply (Hmin m).
Qed.

(** C5. With no [```sql] tag in the text, when [SELECT] (in any case)
    appears in an odd-indexed segment of the split on the fence, extraction
    returns the first such segment trimmed, with a leading [sql] stripped
    (and the rest trimmed again).  Only the odd-indexed segments count:
    the loop gives the same answer on any list of segments that agrees
    with the split at the odd indices. *)
Theorem extract_fenced_select (r : string) (code_blocks : list string) :
  ~ substring_of fence_sql r ->
  split r fence = Return code_blocks ->
  (forall k seg,
      nth_error code_blocks (2 * k + 1) = Some seg ->
      mentions_select seg ->
      (forall j b, j < k -> nth_error code_blocks (2 * j + 1) = Some b ->
                   ~ mentions_select b) ->
      _extract_sql_query r =
      Return (Some (if startswith (strip seg) "sql"
                    then strip (drop 3 (strip seg))
                    else strip seg))) /\
  (forall other,
      List.length other = List.length code_blocks ->
      (forall j, nth_error other (2 * j + 1) = nth_error code_blocks (2 * j + 1)) ->
      scan_blocks other (range 1 (List.length other) 2) =
      scan_blocks code_blocks (range 1 (List.length code_blocks) 2)).
Proof.
  intros Htag Hsplit. apply str_in_false_iff in Htag. split.
  - intros k seg Hnth Hsel Hbefore.
    apply (extract_rule2 r code_blocks k seg Htag Hsplit Hnth).
    + now apply str_in_iff.
    + intros j b Hj Hb. apply str_in_false_iff. now apply (Hbefore j b).
  - intros other Hlen Hodd. rewrite Hlen. apply scan_blocks_ext.
    intros i Hi. unfold range in Hi. apply range_fuel_In in Hi as [_ [j ->]].
    replace (1 + 2 * j) with (2 * j + 1) by lia. apply Hodd.
Qed.

Lemma extract_fenced_select_witness :
  _extract_sql_query
    "SELECT is what you need: ``` sql select a from t ``` or ```SELECT 2```"
  = Return (Some "select a from t").
Proof.
  refine (proj1 (extract_fenced_select
                   "SELECT is what you need: ``` sql select a from t ``` or ```SELECT 2```"
                   ["SELECT is what you need: "; " sql select a from t "; " or ";
                    "SELECT 2"; ""] _ eq_refl)
                0 " sql select a from t " eq_refl _ _).
  - apply str_in_false_iff. reflexivity.
  - apply str_in_iff. reflexivity.
  - intros j b Hj. lia.
Defined.





(** C7.  The text below holds fences and a [SELECT] that lies outside the
    inspected segments.  The second branch is entered, its loop finds
    nothing, and the function's last line reads [query] before any
    assignment: the error is swallowed by the handler and extraction
    answers [None], although the keyword rule alone would have returned
    the statement. *)
Theorem extract_select_outside_fences :
  str_in fence "SELECT 1 ``` x ```" = true /\
  str_in "SELECT" (upper "SELECT 1 ``` x ```") = true /\
  split "SELECT 1 ``` x ```" fence = Return ["SELECT 1 "; " x "; ""] /\
  extract_body "SELECT 1 ``` x ```" = Raise (UnboundLocalError "query") /\
  _extract_sql_query "SELECT 1 ``` x ```" = Return None /\
  select_tail "SELECT 1 ``` x ```" = Return "SELECT 1 ``` x ```".
Proof. repeat split; reflexivity. Qed.

(** C8, as amended.  Let the split on the fence end in the segment [final]
    after [init].  With an odd number of fences ([init] has odd length)
    [final] has an odd index and is inspected: when no tag is present, it
    mentions [SELECT] and no earlier odd-indexed segment does, extraction
    returns it, cleaned.  With an even number of fences [final] is not
    read at all: the loop answers the same whatever stands in its place. *)
Theorem final_segment_by_parity (r : string) (init : list string) (final : string) :
  ~ substring_of fence_sql r ->
  split r fence = Return (init ++ [final])%list ->
  (Nat.odd (List.length init) = true ->
   mentions_select final ->
   (forall j b, nth_error init (2 * j + 1) = Some b -> ~ mentions_select b) ->
   _extract_sql_query r =
   Return (Some (if startswith (strip final) "sql"
                 then strip (drop 3 (strip final))
                 else strip final))) /\
  (Nat.even (List.length init) = true ->
   forall other,
     scan_blocks (init ++ [other])%list
                 (range 1 (List.length (init ++ [other])%list) 2) =
     scan_blocks (init ++ [final])%list
                 (range 1 (List.length (init ++ [final])%list) 2)).
Proof.
  intros Htag Hsplit. apply str_in_false_iff in Htag. split.
  - intros Hodd Hsel Hbefore. apply Nat.odd_spec in Hodd as [k Hk].
    apply (extract_rule2 r (init ++ [final])%list k final Htag Hsplit).
    + rewrite <- Hk, nth_error_app2, Nat.sub_diag; [reflexivity | lia].
    + now apply str_in_iff.
    + intros j b Hj Hb. apply str_in_false_iff. apply (Hbefore j b).
      rewrite nth_error_app1 in Hb; [exact Hb | lia].
  - intros Heven other. rewrite !length_app. cbn [List.length].
    apply scan_blocks_ext. intros i Hi. unfold range in Hi.
    apply range_fuel_In in Hi as [Hlt [j ->]].
    assert (1 + 2 * j <> List.length init).
    { intros E. rewrite <- E in Heven.
      replace (1 + 2 * j) with (S (2 * j)) in Heven by lia.
      rewrite Nat.even_succ, Nat.odd_mul in Heven. discriminate. }
    rewrite !nth_error_app1 by lia. reflexivity.
Qed.

Lemma final_segment_by_parity_witness :
  _extract_sql_query "Try this: ``` x ``` or ```SELECT 2"
  = Return (Some "SELECT 2").
Proof.
  refine (proj1 (final_segment_by_parity
                   "Try this: ``` x ``` or ```SELECT 2"
                   ["Try this: "; " x "; " or "] "SELECT 2" _ eq_refl)
                eq_refl _ _).
  - apply str_in_false_iff. reflexivity.
  - apply str_in_iff. reflexivity.
  - intros j b Hb.
    assert (Hlt : 2 * j + 1 < 3)
      by (apply (nth_error_Some ["Try this: "; " x "; " or "]); congruence).
    assert (j = 0) by lia. subst j. injection Hb as <-.
    apply str_in_false_iff. reflexivity.
Defined.

(** C8 as first stated fails: one fence (an odd number) leaves a final
    segment at index 1, and the loop reads and returns it. *)
Lemma final_segment_examined :
  split "Query: ```SELECT 1" fence = Return ["Query: "; "SELECT 1"] /\
  Nat.odd (List.length ["Query: "; "SELECT 1"] - 1) = true /\
  range 1 (List.length ["Query: "; "SELECT 1"]) 2 = [1] /\
  scan_blocks ["Query: "; "SELECT 1"] [1] = Return (Some "SELECT 1") /\
  _extract_sql_query "Query: ```SELECT 1" = Return (Some "SELECT 1").
Proof. repeat split; reflexivity. Qed.

(** C9, as amended.  A text with no [```sql] tag and no [SELECT] in any
    case yields no SQL candidate. *)
Theorem extract_absent (r : string) :
  ~ substring_of fence_sql r ->
  ~ mentions_select r ->
  _extract_sql_query r = Return None.
Proof.
  intros Htag Hsel. apply extract_rule4; now apply str_in_false_iff.
Qed.

Lemma extract_absent_witness :
  _extract_sql_query "I cannot answer that question." = Return None.
Proof.
  apply (extract_absent "I cannot answer that question.");
    apply str_in_false_iff; reflexivity.
Defined.

(** C9 as first stated fails: a tagged block is returned whether or not it
    holds [SELECT]. *)
Lemma extract_tagged_without_select :
  str_in "SELECT" (upper ("```sql" ++ LF ++ "show tables" ++ LF ++ "```")) = false /\
  _extract_sql_query ("```sql" ++ LF ++ "show tables" ++ LF ++ "```")
  = Return (Some "show tables").
Proof. split; reflexivity. Qed.

(** ** The tool operations *)

(** The three operations whose whole body sits in a [try] block turn any
    [Exception] of their client into an error-shaped result. *)
Lemma execute_sql_query_catches (self : server) (query : string) (e : exn) :
  validate_query query = true ->
  db_run self query = Raise e ->
  is_Exception e = true ->
  run (execute_sql_query self query) =
  (Return [("error", VStr ("Error executing query: " ++ str_of_exn e));
           ("query", VStr query);
           ("success", VBool false)],
   [DbRun query]).
Proof.
  intros Hv Hdb He. unfold run, execute_sql_query, mtry, mbind, call, mret.
  rewrite Hv, Hdb. cbn. now rewrite He.
Qed.

Lemma list_tables_catches (self : server) (e : exn) :
  client_list_tables self (project_id self ++ "." ++ dataset_id self) = Raise e ->
  is_Exception e = true ->
  run (list_tables self) =
  (Return [("error", VStr ("Error listing tables: " ++ str_of_exn e))],
   [CatalogListTables (project_id self ++ "." ++ dataset_id self)]).
Proof.
  intros Hc He.
  unfold run, list_tables, get_available_tables, mtry, mbind, call, mret.
  rewrite Hc. cbn. now rewrite He.
Qed.

Lemma get_table_schema_catches (self : server) (table_name : string) (e : exn) :
  client_get_table self (dataset_id self) table_name = Raise e ->
  is_Exception e = true ->
  run (get_table_schema self table_name) =
  (Return [("error",
            VStr ("Error getting schema for table " ++ table_name ++ ": "
                  ++ str_of_exn e))],
   [CatalogGetTable (dataset_id self) table_name]).
Proof.
  intros Hc He. unfold run, get_table_schema, mtry, mbind, call, mret.
  rewrite Hc. cbn. now rewrite He.
Qed.

(** C1.  [execute_nl_query] lists the tables and invokes the model outside
    any [try] block: an exception raised by either client leaves the
    operation as an exception, not as an error-shaped result. *)
Theorem nl_query_propagates_client_errors (self : server) (query : string) (e : exn) :
  (client_list_tables self (project_id self ++ "." ++ dataset_id self) = Raise e ->
   run (execute_nl_query self query) =
   (Raise e, [CatalogListTables (project_id self ++ "." ++ dataset_id self)])) /\
  (forall tables,
      client_list_tables self (project_id self ++ "." ++ dataset_id self)
      = Return tables ->
      llm_invoke self (nl_prompt tables query) = Raise e ->
      run (execute_nl_query self query) =
      (Raise e, [CatalogListTables (project_id self ++ "." ++ dataset_id self);
                 LlmInvoke (nl_prompt tables query)])).
Proof.
  split.
  - intros Hc. unfold run, execute_nl_query, get_available_tables, mbind, call.
    now rewrite Hc.
  - intros tables Hc Hl.
    unfold run, execute_nl_query, get_available_tables, mbind, call.
    rewrite Hc. cbv beta iota. now rewrite Hl.
Qed.

Example nl_query_model_failure :
  run (execute_nl_query (mock_server (Raise (Exception "429 quota exceeded")))
                        "how many sales?")
  = (Raise (Exception "429 quota exceeded"),
     [CatalogListTables "proj.shop";
      LlmInvoke (nl_prompt ["sales"] "how many sales?")]).
Proof. reflexivity. Qed.

(** C3.  A query the gate rejects makes [execute_sql_query] answer the
    fixed rejection with no client call at all.  A model answer from which
    nothing is extracted makes [execute_nl_query] answer the extraction
    failure with the raw model text, and the query runner [db.run] is not
    called: the calls made are the catalog listing that fed the prompt
    and the model call. *)
Theorem no_sql_run_on_rejection (self : server) :
  (forall query,
      validate_query query = false ->
      run (execute_sql_query self query) = (Return rejection, [])) /\
  (forall query tables llm_response,
      client_list_tables self (project_id self ++ "." ++ dataset_id self)
      = Return tables ->
      llm_invoke self (nl_prompt tables query) = Return llm_response ->
      _extract_sql_query llm_response = Return None ->
      run (execute_nl_query self query) =
      (Return [("error", VStr "Could not generate valid SQL query");
               ("explanation", VStr llm_response)],
       [CatalogListTables (project_id self ++ "." ++ dataset_id self);
        LlmInvoke (nl_prompt tables query)]) /\
      filter is_db_run (snd (run (execute_nl_query self query))) = []).
Proof.
  split.
  - intros query Hv. unfold run, execute_sql_query. now rewrite Hv.
  - intros query tables llm_response Hc Hl Hx.
    assert (E : run (execute_nl_query self query) =
                (Return [("error", VStr "Could not generate valid SQL query");
                         ("explanation", VStr llm_response)],
                 [CatalogListTables (project_id self ++ "." ++ dataset_id self);
                  LlmInvoke (nl_prompt tables query)])).
    { unfold run, execute_nl_query, get_available_tables, mbind, call, lift.
      rewrite Hc. cbv beta iota. rewrite Hl. cbv beta iota. now rewrite Hx. }
    split; [exact E|]. rewrite E. reflexivity.
Qed.

Lemma no_sql_run_on_rejection_witness :
  run (execute_sql_query (mock_server (Return "")) "DROP TABLE sales")
  = (Return rejection, []) /\
  run (execute_nl_query (mock_server (Return "I cannot help with that."))
                        "how many sales?")
  = (Return [("error", VStr "Could not generate valid SQL query");
             ("explanation", VStr "I cannot help with that.")],
     [CatalogListTables "proj.shop";
      LlmInvoke (nl_prompt ["sales"] "how many sales?")]).
Proof.
  split.
  - apply (proj1 (no_sql_run_on_rejection (mock_server (Return "")))).
    reflexivity.
  - apply (proj2 (no_sql_run_on_rejection
                    (mock_server (Return "I cannot help with that.")))
                 "how many sales?" ["sales"] "I cannot help with that.");
      reflexivity.
Defined.

(** C10.  A query whose lowercased text holds none of the six denylist
    words passes the gate, and [execute_sql_query] hands it unchanged to
    the query runner, whose answer it wraps.  No test for [SELECT] is
    made: the empty string, a TRUNCATE and a MERGE statement pass. *)
Theorem gate_passes_without_select :
  (forall (self : server) (query : string),
      (forall keyword,
          In keyword ["insert"; "update"; "delete"; "drop"; "alter"; "create"] ->
          ~ substring_of keyword (lower query)) ->
      validate_query query = true /\
      snd (run (execute_sql_query self query)) = [DbRun query] /\
      forall result,
        db_run self query = Return result ->
        fst (run (execute_sql_query self query)) =
        Return [("query", VStr query); ("result", VStr result);
                ("success", VBool true)]) /\
  validate_query "" = true /\
  validate_query "TRUNCATE TABLE sales" = true /\
  validate_query "MERGE sales USING staging ON sales.id = staging.id" = true /\
  str_in "SELECT" (upper "TRUNCATE TABLE sales") = false.
Proof.
  split; [|repeat split; reflexivity].
  intros self query Hnone.
  assert (Hv : validate_query query = true).
  { destruct (validate_query query) eqn:E; [reflexivity|]. exfalso.
    apply gate_rejects_iff in E as (k & Hk & Hs).
    exact (Hnone k Hk Hs). }
  split; [exact Hv|].
  unfold run, execute_sql_query, mtry, mbind, call, mret. rewrite Hv. cbn.
  destruct (db_run self query) as [result|e] eqn:Edb.
  - split; [reflexivity|]. now intros result' [= <-].
  - split; [destruct (is_Exception e); reflexivity | discriminate].
Qed.

Lemma gate_passes_without_select_witness :
  validate_query "TRUNCATE TABLE sales" = true /\
  run (execute_sql_query (mock_server (Return "")) "TRUNCATE TABLE sales")
  = (Return [("query", VStr "TRUNCATE TABLE sales"); ("result", VStr "[]");
             ("success", VBool true)],
     [DbRun "TRUNCATE TABLE sales"]).
Proof.
  destruct (proj1 gate_passes_without_select (mock_server (Return ""))
                  "TRUNCATE TABLE sales") as (Hv & Hlog & Hres).
  - intros keyword Hk. apply str_in_false_iff.
    simpl in Hk. decompose [or] Hk; subst; try reflexivity; contradiction.
  - split; [exact Hv|]. reflexivity.
Defined.

(** ** Further properties of the safety gate *)

Lemma lower_upper_char (c : ascii) : lower_char (upper_char c) = lower_char c.
Proof.
  destruct c as [b0 b1 b2 b3 b4 b5 b6 b7].
  destruct b0, b1, b2, b3, b4, b5, b6, b7; reflexivity.
Qed.

Lemma lower_lower_char (c : ascii) : lower_char (lower_char c) = lower_char c.
Proof.
  destruct c as [b0 b1 b2 b3 b4 b5 b6 b7].
  destruct b0, b1, b2, b3, b4, b5, b6, b7; reflexivity.
Qed.

Lemma lower_upper (s : string) :
  isascii s = true -> lower (upper s) = lower s.
Proof.
  intros Hs. rewrite (upper_isascii s Hs). unfold lower. clear Hs.
  induction s as [|c s IH]; simpl;
    [reflexivity | now rewrite IH, lower_upper_char].
Qed.

Lemma lower_lower (s : string) : lower (lower s) = lower s.
Proof.
  unfold lower. induction s as [|c s IH]; simpl;
    [reflexivity | now rewrite IH, lower_lower_char].
Qed.

Lemma lower_append (a b : string) : lower (a ++ b) = lower a ++ lower b.
Proof. apply map_chars_append. Qed.

(** X1.  On ASCII text the gate does not see letter case: a query, its
    upper-case form and its lower-case form get the same verdict. *)
Theorem gate_ignores_case (q : string) :
  isascii q = true ->
  validate_query (upper q) = validate_query q /\
  validate_query (lower q) = validate_query q.
Proof.
  intros Hq. unfold validate_query. now rewrite (lower_upper q Hq), lower_lower.
Qed.

Lemma gate_ignores_case_witness :
  validate_query (upper "Drop Table t") = validate_query "Drop Table t" /\
  validate_query (lower "Drop Table t") = validate_query "Drop Table t".
Proof. apply (gate_ignores_case "Drop Table t"). reflexivity. Defined.

(** X2.  A rejected query stays rejected inside any longer text: no prefix,
    suffix or comment added around it gets it through. *)
Theorem gate_rejection_extends (q before after : string) :
  validate_query q = false ->
  validate_query (before ++ q ++ after) = false.
Proof.
  intros H. apply gate_rejects_iff in H as (k & Hk & Hs).
  apply gate_rejects_iff. exists k. split; [exact Hk|].
  eapply substring_of_trans; [exact Hs|].
  exists (lower before), (lower after). now rewrite !lower_append.
Qed.

Lemma gate_rejection_extends_witness :
  validate_query ("SELECT 1; " ++ "Drop table t" ++ " -- harmless") = false.
Proof.
  apply (gate_rejection_extends "Drop table t" "SELECT 1; " " -- harmless").
  reflexivity.
Defined.

(** ** Further properties of the tool operations *)

(** X3.  Whatever the clients answer, a statement reaches the query runner only
    if the gate accepted it: [execute_sql_query] runs nothing but its own
    argument, [execute_nl_query] nothing but the non-empty candidate
    extracted from the model's answer, and each at most once. *)
Theorem only_validated_sql_runs (self : server) (query sql : string) :
  (In (DbRun sql) (snd (run (execute_sql_query self query))) ->
   sql = query /\ validate_query sql = true) /\
  (In (DbRun sql) (snd (run (execute_nl_query self query))) ->
   validate_query sql = true /\ sql <> "" /\
   exists tables llm_response,
     client_list_tables self (project_id self ++ "." ++ dataset_id self)
     = Return tables /\
     llm_invoke self (nl_prompt tables query) = Return llm_response /\
     _extract_sql_query llm_response = Return (Some sql)) /\
  List.length (filter is_db_run (snd (run (execute_sql_query self query)))) <= 1 /\
  List.length (filter is_db_run (snd (run (execute_nl_query self query)))) <= 1.
Proof.
  assert (Hsql : forall q,
             snd (run (execute_sql_query self q)) =
             if validate_query q then [DbRun q] else []).
  { intros q. unfold run, execute_sql_query, mtry, mbind, call, mret.
    destruct (validate_query q); [|reflexivity]. cbn.
    destruct (db_run self q) as [res|e]; [reflexivity|].
    destruct (is_Exception e); reflexivity. }
  split; [|split; [|split]].
  - rewrite Hsql. destruct (validate_query query) eqn:Hv; [|intros []].
    intros [[= <-]|[]]. now split.
  - unfold run, execute_nl_query, get_available_tables, mbind, call, lift.
    destruct (client_list_tables self _) as [tables|e] eqn:Hc; cbv beta iota.
    2:{ intros [H|[]]. discriminate H. }
    destruct (llm_invoke self (nl_prompt tables query)) as [resp|e] eqn:Hl;
      cbv beta iota.
    2:{ intros [H|[H|[]]]; discriminate H. }
    destruct (_extract_sql_query resp) as [[[|c cand]|]|e] eqn:Hx; cbv beta iota.
    1,3,4: intros [H|[H|[]]]; discriminate H.
    destruct (validate_query (String c cand)) eqn:Hv; cbn [negb].
    2:{ intros [H|[H|[]]]; discriminate H. }
    unfold mtry, mbind, call, mret.
    destruct (db_run self (String c cand)) as [res|e]; cbv beta iota.
    + intros [H|[H|[[= <-]|[]]]]; try discriminate H.
      repeat split; [exact Hv | discriminate | now exists tables, resp].
    + destruct (is_Exception e);
        (intros [H|[H|[[= <-]|[]]]]; try discriminate H;
         repeat split; [exact Hv | discriminate | now exists tables, resp]).
  - rewrite Hsql. destruct (validate_query query); simpl; lia.
  - unfold run, execute_nl_query, get_available_tables, mbind, call, lift.
    destruct (client_list_tables self _) as [tables|e]; cbv beta iota;
      [|simpl; lia].
    destruct (llm_invoke self (nl_prompt tables query)) as [resp|e];
      cbv beta iota; [|simpl; lia].
    destruct (_extract_sql_query resp) as [[[|c cand]|]|e]; cbv beta iota;
      try (simpl; lia).
    destruct (validate_query (String c cand)); cbn [negb]; [|simpl; lia].
    unfold mtry, mbind, call, mret.
    destruct (db_run self (String c cand)) as [res|e]; cbv beta iota;
      [simpl; lia|].
    destruct (is_Exception e); simpl; lia.
Qed.

Lemma only_validated_sql_runs_witness :
  validate_query "SELECT count(*) FROM sales" = true /\
  _extract_sql_query "```sql SELECT count(*) FROM sales ```"
  = Return (Some "SELECT count(*) FROM sales").
Proof.
  destruct (proj1 (proj2 (only_validated_sql_runs
                            (mock_server (Return "```sql SELECT count(*) FROM sales ```"))
                            "how many sales?" "SELECT count(*) FROM sales")))
    as (Hv & _ & tables & resp & _ & Hl & Hx).
  - right. right. left. reflexivity.
  - injection Hl as <-. now split.
Defined.

(** X4.  The three operations whose body sits inside a [try] block never let an
    [Exception] out: they return a mapping, which carries the ["error"] key
    exactly when the gate rejected the query or the client raised. *)
Theorem guarded_operations_return (self : server) :
  (forall query,
      (forall e, db_run self query = Raise e -> is_Exception e = true) ->
      exists d,
        fst (run (execute_sql_query self query)) = Return d /\
        (is_error_result d = true <->
         validate_query query = false \/ exists e, db_run self query = Raise e)) /\
  ((forall e, client_list_tables self (project_id self ++ "." ++ dataset_id self)
              = Raise e -> is_Exception e = true) ->
   exists d,
     fst (run (list_tables self)) = Return d /\
     (is_error_result d = true <->
      exists e, client_list_tables self (project_id self ++ "." ++ dataset_id self)
                = Raise e)) /\
  (forall table_name,
      (forall e, client_get_table self (dataset_id self) table_name = Raise e ->
                 is_Exception e = true) ->
      exists d,
        fst (run (get_table_schema self table_name)) = Return d /\
        (is_error_result d = true <->
         exists e, client_get_table self (dataset_id self) table_name = Raise e)).
Proof.
  split; [|split].
  - intros query Hexn. unfold run, execute_sql_query, mtry, mbind, call, mret.
    destruct (validate_query query) eqn:Hv; cbn [negb].
    + destruct (db_run self query) as [res|e] eqn:Hdb; cbv beta iota.
      * eexists. split; [reflexivity|]. split; [discriminate|].
        intros [H|[e H]]; discriminate H.
      * rewrite (Hexn e eq_refl). eexists. split; [reflexivity|].
        split; [|reflexivity]. intros _. right. now exists e.
    + exists rejection. split; [reflexivity|]. split; [now left | reflexivity].
  - intros Hexn.
    unfold run, list_tables, get_available_tables, mtry, mbind, call, mret.
    destruct (client_list_tables self _) as [tables|e] eqn:Hc; cbv beta iota.
    + eexists. split; [reflexivity|]. split; [discriminate|].
      intros [e H]; discriminate H.
    + rewrite (Hexn e eq_refl). eexists. split; [reflexivity|].
      split; [|reflexivity]. intros _. now exists e.
  - intros table_name Hexn.
    unfold run, get_table_schema, mtry, mbind, call, mret.
    destruct (client_get_table self _ _) as [t|e] eqn:Hc; cbv beta iota.
    + eexists. split; [reflexivity|]. split; [discriminate|].
      intros [e H]; discriminate H.
    + rewrite (Hexn e eq_refl). eexists. split; [reflexivity|].
      split; [|reflexivity]. intros _. now exists e.
Qed.

Lemma guarded_operations_return_witness :
  exists d,
    fst (run (get_table_schema (mock_server (Return "")) "sales")) = Return d /\
    is_error_result d = true.
Proof.
  destruct (proj2 (proj2 (guarded_operations_return (mock_server (Return ""))))
                  "sales") as (d & Hd & Herr).
  - intros e [= <-]. reflexivity.
  - exists d. split; [exact Hd|]. apply Herr.
    now exists (Exception "Not found").
Defined.

(** ** Further properties of the extraction heuristic *)

(** *** [split] loses nothing *)

Lemma concat_cons (sep x : string) (xs : list string) :
  xs <> [] -> String.concat sep (x :: xs) = x ++ sep ++ String.concat sep xs.
Proof. destruct xs; [congruence | reflexivity]. Qed.

Lemma split_fuel_nonempty (fuel : nat) (s sep : string) :
  split_fuel fuel s sep <> [].
Proof.
  destruct fuel; simpl; destruct (index_of s sep); discriminate.
Qed.

Lemma index_of_cut (s sep : string) (i : nat) :
  index_of s sep = Some i ->
  s = take i s ++ sep ++ drop (i + String.length sep) s /\
  ~ substring_of sep (take i s) \/ sep = "".
Proof.
  intros E. destruct sep as [|c sep]; [now right|]. left.
  apply index_of_first in E as [(a & b & Hs & Hl) Hmin]. split.
  - subst i. rewrite Hs at 1. rewrite Hs, take_append, <- drop_drop, drop_append.
    now rewrite drop_append.
  - intros Hsub. apply substring_occurs in Hsub as [m Hm].
    apply occurs_at_take in Hm as [Hm Hlen]. simpl in Hlen.
    apply (Hmin m); [lia | exact Hm].
Qed.

Lemma split_fuel_join (sep : string) (fuel : nat) (s : string) :
  sep <> "" ->
  String.concat sep (split_fuel fuel s sep) = s.
Proof.
  intros Hsep. revert s. induction fuel as [|fuel IH]; intros s; simpl;
    destruct (index_of s sep) as [i|] eqn:E; try reflexivity.
  rewrite concat_cons by apply split_fuel_nonempty. rewrite IH.
  destruct (index_of_cut _ _ _ E) as [[Hs _]|]; [now symmetry | contradiction].
Qed.

Lemma split_fuel_no_sep (sep : string) (fuel : nat) (s seg : string) :
  sep <> "" -> String.length s <= fuel ->
  In seg (split_fuel fuel s sep) -> ~ substring_of sep seg.
Proof.
  intros Hsep. revert s. induction fuel as [|fuel IH]; intros s Hfuel; simpl;
    destruct (index_of s sep) as [i|] eqn:E.
  - apply index_of_nonempty in E; [lia | exact Hsep].
  - intros [<-|[]]. now apply index_of_None.
  - intros [<-|H].
    + destruct (index_of_cut _ _ _ E) as [[_ Hno]|]; [exact Hno | contradiction].
    + apply (IH (drop (i + String.length sep) s)); [|exact H].
      pose proof (index_of_nonempty _ _ _ Hsep E). rewrite length_drop. lia.
  - intros [<-|[]]. now apply index_of_None.
Qed.

(** X5.  Splitting on a separator and joining the pieces with it gives the text
    back, and no piece holds the separator: the segments the heuristic
    inspects are exactly the text between the fences. *)
Theorem split_join_roundtrip (s sep : string) (pieces : list string) :
  split s sep = Return pieces ->
  join sep pieces = s /\
  pieces <> [] /\
  forall seg, In seg pieces -> ~ substring_of sep seg.
Proof.
  unfold split, join. destruct sep as [|c sep]; [discriminate|].
  intros [= <-]. split; [|split].
  - apply split_fuel_join. discriminate.
  - apply split_fuel_nonempty.
  - intros seg. apply split_fuel_no_sep; [discriminate | lia].
Qed.

Lemma split_join_roundtrip_witness :
  join fence ["Use "; " sql SELECT 1 "; " please"]
  = "Use ``` sql SELECT 1 ``` please".
Proof.
  apply (split_join_roundtrip "Use ``` sql SELECT 1 ``` please" fence
                              ["Use "; " sql SELECT 1 "; " please"]).
  reflexivity.
Defined.

(** *** Extraction always answers, and answers trimmed text *)

Lemma trimmed_strip (s : string) : trimmed (strip s).
Proof. destruct (strip_spec s) as (l & t & _ & _ & _ & H). exact H. Qed.

Lemma trimmed_clean_block (b : string) : trimmed (clean_block b).
Proof.
  unfold clean_block. destruct (startswith (strip b) "sql"); apply trimmed_strip.
Qed.

(** What the loop can end with. *)
Lemma scan_blocks_cases (blocks : list string) (idxs : list nat) :
  match scan_blocks blocks idxs with
  | Return None => True
  | Return (Some q) =>
      exists b, In b blocks /\ q = clean_block b /\ str_in "SELECT" (upper b) = true
  | Raise e => is_Exception e = true
  end.
Proof.
  induction idxs as [|i idxs IH]; cbn [scan_blocks]; [exact I|].
  unfold getitem. destruct (nth_error blocks i) as [b|] eqn:Eb; cbn [obind].
  - destruct (str_in "SELECT" (upper b)) eqn:Es; [|exact IH].
    exists b. split; [eapply nth_error_In; exact Eb | now split].
  - reflexivity.
Qed.

Lemma select_tail_returns (r : string) :
  exists s, select_tail r = Return (strip s).
Proof.
  unfold select_tail. destruct (end_positions _) as [|x rest].
  - eexists. reflexivity.
  - eexists. reflexivity.
Qed.

(** X6.  [_extract_sql_query] never raises, whatever the text, and a candidate
    it returns has no whitespace at either end. *)
Theorem extraction_answers_trimmed (r : string) :
  exists answer,
    _extract_sql_query r = Return answer /\
    forall q, answer = Some q -> trimmed q.
Proof.
  unfold _extract_sql_query, extract_body.
  destruct (str_in fence_sql r) eqn:Htag.
  - unfold str_in in Htag. destruct (index_of r fence_sql) as [i|] eqn:E;
      [|discriminate].
    pose proof (extract_body_tagged r i E) as Hb.
    unfold extract_body, str_in in Hb. rewrite E in Hb. rewrite Hb.
    eexists. split; [reflexivity|]. intros q [= <-]. apply trimmed_strip.
  - destruct (str_in fence r && str_in "SELECT" (upper r)) eqn:Hsecond.
    + cbn [split fence obind].
      pose proof (scan_blocks_cases
                    (split_fuel (String.length r) r "```")
                    (range 1 (List.length (split_fuel (String.length r) r "```")) 2))
        as Hcases.
      destruct (scan_blocks _ _) as [[q|]|e]; cbn [obind try_except].
      * destruct Hcases as (b & _ & -> & _). eexists. split; [reflexivity|].
        intros q [= <-]. apply trimmed_clean_block.
      * exists None. split; [reflexivity | discriminate].
      * rewrite Hcases. exists None. split; [reflexivity | discriminate].
    + destruct (str_in "SELECT" (upper r)).
      * destruct (select_tail_returns r) as [s ->]. cbn [obind try_except].
        eexists. split; [reflexivity|]. intros q [= <-]. apply trimmed_strip.
      * exists None. split; [reflexivity | discriminate].
Qed.

(** *** A candidate found without the tag mentions [SELECT] *)

Lemma isspace_upper_char (c : ascii) : isspace c = true -> upper_char c = c.
Proof.
  destruct c as [b0 b1 b2 b3 b4 b5 b6 b7].
  destruct b0, b1, b2, b3, b4, b5, b6, b7; intros H;
    vm_compute in H; try discriminate H; reflexivity.
Qed.

(** A character that [upper] sends to a letter of the keyword is no
    whitespace. *)
Lemma keyword_char_nonspace (c : ascii) :
  has_char (upper_char c) "SELECT" = true -> isspace c = false.
Proof.
  intros H. destruct (isspace c) eqn:E; [|reflexivity].
  rewrite (isspace_upper_char c E) in H. cbn [has_char] in H.
  repeat (apply orb_true_iff in H as [H|H];
          [apply Ascii.eqb_eq in H; subst c; vm_compute in E; discriminate E|]).
  discriminate H.
Qed.

Lemma lstrip_app_nonspace (a b : string) (c : ascii) :
  isspace c = false -> lstrip (a ++ String c b) = lstrip a ++ String c b.
Proof.
  intros Hc. induction a as [|x a IH]; simpl.
  - now rewrite Hc.
  - destruct (isspace x); [exact IH | reflexivity].
Qed.

Lemma rstrip_app_nonspace (a b : string) (c : ascii) :
  isspace c = false -> rstrip (a ++ String c b) = a ++ String c (rstrip b).
Proof.
  intros Hc. induction a as [|x a IH].
  - simpl. destruct (rstrip b); [now rewrite Hc | reflexivity].
  - change (rstrip (String x a ++ String c b))
      with (match rstrip (a ++ String c b) with
            | EmptyString => if isspace x then EmptyString else String x EmptyString
            | r => String x r
            end).
    rewrite IH. destruct a; reflexivity.
Qed.

Lemma map_chars_split (f : ascii -> ascii) (s A B : string) :
  map_chars f s = A ++ B ->
  exists a b, s = a ++ b /\ map_chars f a = A /\ map_chars f b = B.
Proof.
  revert s. induction A as [|x A IH]; intros s H.
  - exists "", s. now repeat split.
  - destruct s as [|c s]; [discriminate|]. simpl in H. injection H as Hx H.
    destruct (IH s H) as (a & b & -> & Ha & Hb).
    exists (String c a), b. simpl. now rewrite Hx, Ha, Hb.
Qed.

Lemma strip_around (a mid b : string) (c0 c5 : ascii) :
  isspace c0 = false -> isspace c5 = false ->
  strip (a ++ String c0 (mid ++ String c5 b))
  = lstrip a ++ String c0 (mid ++ String c5 (rstrip b)).
Proof.
  intros H0 H5. unfold strip. rewrite (lstrip_app_nonspace _ _ _ H0).
  replace (lstrip a ++ String c0 (mid ++ String c5 b))
    with ((lstrip a ++ String c0 mid) ++ String c5 b)
    by (rewrite append_assoc3; reflexivity).
  rewrite (rstrip_app_nonspace _ _ _ H5), append_assoc3. reflexivity.
Qed.

Lemma isascii_strip (s : string) : isascii s = true -> isascii (strip s) = true.
Proof.
  destruct (strip_spec s) as (l & t & Hs & _). apply isascii_substring.
  now exists l, t.
Qed.

(** Trimming cannot remove the keyword. *)
Lemma mentions_select_strip (s : string) :
  isascii s = true -> mentions_select s -> mentions_select (strip s).
Proof.
  intros Hs (A & B & H). rewrite (upper_isascii s Hs) in H.
  apply map_chars_split in H as (a & kb & -> & Ha & H).
  apply map_chars_split in H as (k & b & -> & Hk & Hb).
  destruct k as [|c0 [|c1 [|c2 [|c3 [|c4 [|c5 [|c6 k]]]]]]]; try discriminate Hk.
  injection Hk as H0 H1 H2 H3 H4 H5.
  assert (N0 : isspace c0 = false)
    by (apply keyword_char_nonspace; rewrite H0; reflexivity).
  assert (N5 : isspace c5 = false)
    by (apply keyword_char_nonspace; rewrite H5; reflexivity).
  pose proof (strip_around a (String c1 (String c2 (String c3 (String c4 ""))))
                           b c0 c5 N0 N5) as E.
  cbn [append] in E, Hs |- *.
  unfold mentions_select. rewrite (upper_isascii _ (isascii_strip _ Hs)), E.
  exists (map_chars upper_char (lstrip a)), (map_chars upper_char (rstrip b)).
  rewrite map_chars_append. cbn [map_chars append].
  now rewrite H0, H1, H2, H3, H4, H5.
Qed.

Lemma mentions_select_after_tag (t : string) :
  mentions_select ("sql" ++ t) -> mentions_select t.
Proof.
  unfold mentions_select. rewrite upper_append.
  change (upper "sql") with "SQL".
  intros H. apply substring_occurs in H as [n Hn].
  apply occurs_at_iff in Hn as [Hle Hn].
  destruct n as [|[|[|n]]]; try discriminate Hn.
  eapply occurs_at_substring. apply occurs_at_iff. split; [|exact Hn].
  simpl in Hle. lia.
Qed.

Lemma mentions_select_clean_block (b : string) :
  isascii b = true -> mentions_select b -> mentions_select (clean_block b).
Proof.
  intros Hb H. apply (mentions_select_strip b Hb) in H.
  pose proof (isascii_strip b Hb) as Hsb. unfold clean_block.
  destruct (startswith (strip b) "sql") eqn:E; [|exact H].
  apply startswith_iff in E as [t Ht]. rewrite Ht in *.
  assert (Hta : isascii t = true)
    by (apply (isascii_substring t ("sql" ++ t)); [now exists "sql", ""; rewrite append_empty_r | exact Hsb]).
  apply (mentions_select_strip t Hta). now apply mentions_select_after_tag.
Qed.

(** No end marker starts inside the keyword. *)
Lemma marker_after_keyword (q mk : string) (c : nat) :
  startswith (map_chars upper_char q) "SELECT" = true ->
  In mk end_markers ->
  occurs_at mk q c ->
  6 <= c.
Proof.
  intros Hq Hmk Ho. apply occurs_at_iff in Ho as [_ Ho].
  destruct (Nat.le_gt_cases 6 c) as [Hle|Hlt]; [exact Hle|]. exfalso.
  destruct q as [|k0 [|k1 [|k2 [|k3 [|k4 [|k5 q]]]]]];
    cbn [map_chars startswith] in Hq;
    try (repeat rewrite andb_false_r in Hq; discriminate Hq).
  repeat (apply andb_true_iff in Hq as [? Hq]).
  repeat match goal with
         | H : Ascii.eqb _ _ = true |- _ => apply Ascii.eqb_eq in H
         end.
  unfold end_markers, LF, CR in Hmk. cbn [append In] in Hmk.
  decompose [or] Hmk; try contradiction; subst mk;
    do 6 (destruct c as [|c]; [
            cbn [drop startswith] in Ho; apply andb_true_iff in Ho as [Ho _];
            apply Ascii.eqb_eq in Ho; subst;
            match goal with
            | H : upper_char _ = _ |- _ => vm_compute in H; discriminate H
            end|]);
    lia.
Qed.

Lemma select_tail_mentions (r q : string) :
  isascii r = true ->
  str_in "SELECT" (upper r) = true ->
  select_tail r = Return q ->
  mentions_select q.
Proof.
  intros Hr Hin Hq. unfold str_in in Hin.
  destruct (index_of (upper r) "SELECT") as [p|] eqn:Ep; [|discriminate].
  pose proof (isascii_drop p r Hr) as Hd.
  assert (Hstart : startswith (map_chars upper_char (drop p r)) "SELECT" = true).
  { rewrite map_chars_drop, <- (upper_isascii r Hr).
    apply index_of_first in Ep as [Ho _]. now apply occurs_at_iff in Ho as [_ Ho]. }
  assert (Hwhole : mentions_select (drop p r)).
  { apply startswith_iff in Hstart as [t Ht]. exists "", t.
    now rewrite (upper_isascii _ Hd). }
  destruct (select_tail_spec r p Ep) as [Hnone Hsome].
  destruct (existsb (fun mk => str_in mk (drop p r)) end_markers) eqn:Ex.
  - apply existsb_exists in Ex as (mk & Hmk & Hs). apply str_in_iff in Hs.
    destruct Hsome as (c & [(mk' & Hmk' & Ho) _] & Hc); [now exists mk|].
    rewrite Hc in Hq. injection Hq as <-.
    pose proof (isascii_take c _ Hd) as Htk.
    apply (mentions_select_strip _ Htk).
    pose proof (marker_after_keyword _ _ _ Hstart Hmk' Ho) as Hc6.
    apply startswith_iff in Hstart as [t Ht].
    exists "", (take (c - 6) t).
    rewrite (upper_isascii _ Htk), map_chars_take, Ht. cbn [append].
    replace c with (String.length "SELECT" + (c - 6)) at 1 by (simpl; lia).
    exact (take_append_ge "SELECT" t (c - 6)).
  - rewrite Hnone in Hq.
    + injection Hq as <-. now apply mentions_select_strip.
    + intros mk Hmk Hs. apply str_in_iff in Hs.
      assert (existsb (fun mk => str_in mk (drop p r)) end_markers = true)
        by (apply existsb_exists; now exists mk).
      congruence.
Qed.

(** X7.  In ASCII text without the [```sql] tag, every candidate that
    extraction returns contains the keyword [SELECT] (in some letter case):
    neither the trimming, nor the removal of a leading [sql], nor the cut
    at an end marker can lose it. *)
Theorem untagged_candidate_mentions_select (r q : string) :
  isascii r = true ->
  ~ substring_of fence_sql r ->
  _extract_sql_query r = Return (Some q) ->
  mentions_select q.
Proof.
  intros Hr Htag. apply str_in_false_iff in Htag.
  unfold _extract_sql_query, extract_body. rewrite Htag.
  destruct (str_in fence r && str_in "SELECT" (upper r)) eqn:Hsecond.
  - cbn [split fence obind].
    pose proof (scan_blocks_cases
                  (split_fuel (String.length r) r "```")
                  (range 1 (List.length (split_fuel (String.length r) r "```")) 2))
      as Hcases.
    destruct (scan_blocks _ _) as [[q'|]|e]; cbn [obind try_except].
    + destruct Hcases as (b & Hb & -> & Hsel). intros [= <-].
      apply mentions_select_clean_block; [|now apply str_in_iff].
      apply (isascii_substring b r); [|exact Hr].
      eapply split_fuel_substring; exact Hb.
    + discriminate.
    + rewrite Hcases. discriminate.
  - destruct (str_in "SELECT" (upper r)) eqn:Hsel; [|discriminate].
    destruct (select_tail r) as [s|e] eqn:Es; cbn [obind try_except].
    + intros [= <-]. eapply select_tail_mentions; eassumption.
    + destruct (is_Exception e); discriminate.
Qed.

Lemma untagged_candidate_mentions_select_witness :
  mentions_select "select a from t".
Proof.
  apply (untagged_candidate_mentions_select
           "Run ``` sql select a from t ``` now" "select a from t").
  - reflexivity.
  - apply str_in_false_iff. reflexivity.
  - reflexivity.
Defined.

(** ** The front end: liveness check, spawn, history, preview *)

(** One matching argument is enough for the liveness check. *)
Lemma is_process_running_hit (pattern cmd : string) (args : list string)
      (proc : proc_info) (procs : list proc_info) :
  In proc procs -> proc_cmdline proc = Some args -> In cmd args ->
  cmd <> "" -> str_in pattern cmd = true ->
  is_process_running pattern procs = true.
Proof.
  intros Hin Hargs Hcmd Hne Hs.
  induction procs as [|p procs IH]; [destruct Hin|]. cbn [is_process_running].
  destruct Hin as [->|Hin].
  - rewrite Hargs. destruct args as [|arg args]; [destruct Hcmd|].
    assert (E : existsb (fun c => str_in pattern c) (filter nonempty (arg :: args))
                = true).
    { apply existsb_exists. exists cmd. split; [|exact Hs].
      apply filter_In. split; [exact Hcmd|]. destruct cmd; [congruence | reflexivity]. }
    now rewrite E.
  - destruct (proc_cmdline p) as [[|arg args']|]; try (now apply IH).
    destruct (existsb _ _); [reflexivity | now apply IH].
Qed.

(** X8.  [is_process_running] answers [True] exactly when some listed process
    has a non-empty command-line argument that contains the pattern;
    a process whose command line is [None] or empty never matches. *)
Theorem is_process_running_iff (pattern : string) (procs : list proc_info) :
  is_process_running pattern procs = true <->
  exists proc args cmd,
    In proc procs /\ proc_cmdline proc = Some args /\
    In cmd args /\ cmd <> "" /\ substring_of pattern cmd.
Proof.
  induction procs as [|proc procs IH]; cbn [is_process_running].
  - split; [discriminate | intros (? & ? & ? & [] & _)].
  - assert (Hhere : forall args,
               proc_cmdline proc = Some args ->
               existsb (fun cmd => str_in pattern cmd) (filter nonempty args) = true <->
               exists cmd, In cmd args /\ cmd <> "" /\ substring_of pattern cmd).
    { intros args _. rewrite existsb_exists. split.
      - intros (cmd & Hin & Hs). apply filter_In in Hin as [Hin Hne].
        exists cmd. repeat split; [exact Hin | | now apply str_in_iff].
        intros ->. discriminate Hne.
      - intros (cmd & Hin & Hne & Hs). exists cmd. split; [|now apply str_in_iff].
        apply filter_In. split; [exact Hin|]. destruct cmd; [congruence | reflexivity]. }
    destruct (proc_cmdline proc) as [[|arg args]|] eqn:Ec.
    + rewrite IH. split.
      * intros (p & a & c & Hp & rest). exists p, a, c. split; [now right | exact rest].
      * intros (p & a & c & [<-|Hp] & Ha & Hc & rest).
        -- rewrite Ec in Ha. injection Ha as <-. destruct Hc.
        -- now exists p, a, c.
    + specialize (Hhere (arg :: args) eq_refl).
      destruct (existsb _ (filter nonempty (arg :: args))) eqn:Ex.
      * split; [|reflexivity]. intros _.
        destruct (proj1 Hhere eq_refl) as (cmd & Hin & Hne & Hs).
        exists proc, (arg :: args), cmd. repeat split; auto. now left.
      * rewrite IH. split.
        -- intros (p & a & c & Hp & rest). exists p, a, c.
           split; [now right | exact rest].
        -- intros (p & a & c & [<-|Hp] & Ha & Hc & Hne & Hs).
           ++ rewrite Ec in Ha. injection Ha as <-.
              assert (false = true) by (apply Hhere; now exists c). discriminate.
           ++ now exists p, a, c.
    + rewrite IH. split.
      * intros (p & a & c & Hp & rest). exists p, a, c. split; [now right | exact rest].
      * intros (p & a & c & [<-|Hp] & Ha & rest).
        -- rewrite Ec in Ha. discriminate Ha.
        -- now exists p, a, c.
Qed.

Lemma server_path_has_name (dir : string) :
  substring_of "sql_mcp_server.py" (MCP_SERVER_PATH dir).
Proof.
  unfold MCP_SERVER_PATH, path_join. cbn [startswith Ascii.eqb].
  change (startswith "sql_mcp_server.py" "/") with false. cbv beta iota.
  destruct dir as [|c dir]; [now exists "", ""|].
  destruct (String.eqb _ "/").
  - exists (String c dir), "". now rewrite append_empty_r.
  - exists (String c dir ++ "/"), "". now rewrite append_empty_r, append_assoc3.
Qed.

(** X9.  [start_mcp_server] spawns nothing when the liveness check succeeds,
    and a server it has spawned passes that check, wherever the script
    lives: with the child [python MCP_SERVER_PATH] in the listing, the
    next call answers [True] with the "already running" notice alone. *)
Theorem spawned_server_is_detected (d : desktop) (spawned : proc_info) :
  In spawned (process_iter d) ->
  proc_cmdline spawned = Some ["python"; MCP_SERVER_PATH (script_dir d)] ->
  is_process_running "sql_mcp_server.py" (process_iter d) = true /\
  start_mcp_server d [] =
  (Return true, [SidebarSuccess "🟢 MCP server is already running!"]).
Proof.
  intros Hin Hcmd.
  assert (Hrun : is_process_running "sql_mcp_server.py" (process_iter d) = true).
  { apply (is_process_running_hit _ (MCP_SERVER_PATH (script_dir d))
                                   ["python"; MCP_SERVER_PATH (script_dir d)] spawned);
      [exact Hin | exact Hcmd | right; now left | |
       apply str_in_iff, server_path_has_name].
    intros E. pose proof (server_path_has_name (script_dir d)) as (a & b & H).
    rewrite E in H. destruct a; discriminate H. }
  split; [exact Hrun|]. unfold start_mcp_server. now rewrite Hrun.
Qed.

Lemma spawned_server_is_detected_witness :
  start_mcp_server
    {| process_iter :=
         [ {| proc_pid := 1; proc_name := Some "init"; proc_cmdline := None |};
           {| proc_pid := 77; proc_name := Some "python";
              proc_cmdline := Some ["python"; "/srv/app/sql_mcp_server.py"] |} ];
       script_dir := "/srv/app";
       popen := fun _ => Raise (Exception "unused") |} []
  = (Return true, [SidebarSuccess "🟢 MCP server is already running!"]).
Proof.
  refine (proj2 (spawned_server_is_detected _
                   {| proc_pid := 77; proc_name := Some "python";
                      proc_cmdline := Some ["python"; "/srv/app/sql_mcp_server.py"] |}
                   _ _)).
  - right. left. reflexivity.
  - reflexivity.
Defined.

(** X10.  With no server detected, [start_mcp_server] spawns exactly once, never
    lets an [Exception] out, and answers [True] exactly when the spawn
    succeeded and the child was still alive after the two-second wait. *)
Theorem start_mcp_server_outcome (d : desktop) :
  is_process_running "sql_mcp_server.py" (process_iter d) = false ->
  (forall e, popen d ["python"; MCP_SERVER_PATH (script_dir d)] = Raise e ->
             is_Exception e = true) ->
  exists answer log,
    start_mcp_server d [] = (Return answer, log) /\
    filter is_popen log = [Popen ["python"; MCP_SERVER_PATH (script_dir d)]] /\
    (answer = true <->
     exists process,
       popen d ["python"; MCP_SERVER_PATH (script_dir d)] = Return process /\
       poll process = None).
Proof.
  intros Hrun Hexn. unfold start_mcp_server. rewrite Hrun.
  unfold ttry, tbind, tcall, emit, tret.
  destruct (popen d _) as [process|e] eqn:Hp; cbv beta iota.
  - destruct (poll process) as [code|] eqn:Hpoll; cbv beta iota.
    + do 2 eexists. split; [reflexivity|]. split; [reflexivity|].
      split; [discriminate|]. intros (pr & [= <-] & H). congruence.
    + do 2 eexists. split; [reflexivity|]. split; [reflexivity|].
      split; [|reflexivity]. intros _. now exists process.
  - rewrite (Hexn e eq_refl). do 2 eexists. split; [reflexivity|].
    split; [reflexivity|]. split; [discriminate|]. intros (pr & H & _).
    discriminate H.
Qed.

Lemma start_mcp_server_outcome_witness :
  exists answer log,
    start_mcp_server
      {| process_iter := [ {| proc_pid := 1; proc_name := Some "init";
                              proc_cmdline := Some ["/sbin/init"] |} ];
         script_dir := "/srv/app";
         popen := fun _ => Return {| poll := Some 1%Z;
                                     communicate := ("", "No module named mcp") |} |}
      [] = (Return answer, log) /\
    answer = false.
Proof.
  destruct (start_mcp_server_outcome
              {| process_iter := [ {| proc_pid := 1; proc_name := Some "init";
                                      proc_cmdline := Some ["/sbin/init"] |} ];
                 script_dir := "/srv/app";
                 popen := fun _ => Return {| poll := Some 1%Z;
                                             communicate := ("", "No module named mcp") |} |})
    as (answer & log & Hrun & _ & Hans).
  - reflexivity.
  - intros e H. discriminate H.
  - exists answer, log. split; [exact Hrun|].
    destruct answer; [|reflexivity].
    destruct (proj1 Hans eq_refl) as (pr & [= <-] & Hpoll). discriminate Hpoll.
Defined.

(** *** The query history *)

Lemma nth_error_enumerate_from {A : Type} (l : list A) :
  forall start i z a,
    nth_error (combine (map Z.of_nat (seq start (List.length l))) l) i = Some (z, a) ->
    z = Z.of_nat (start + i) /\ nth_error l i = Some a.
Proof.
  induction l as [|x l IH]; intros start i z a H.
  - destruct i; discriminate H.
  - destruct i as [|i]; cbn in H.
    + injection H as <- <-. split; [f_equal; lia | reflexivity].
    + apply IH in H as [-> H]. split; [f_equal; lia | exact H].
Qed.

Lemma map_snd_enumerate_from {A : Type} (l : list A) :
  forall start,
    map snd (combine (map Z.of_nat (seq start (List.length l))) l) = l.
Proof.
  induction l as [|x l IH]; intros start; [reflexivity|].
  cbn [List.length seq map combine snd]. now rewrite IH.
Qed.

(** X11.  The history display shows every entry of [chat_history] once,
    the most recent first, and the expander titled "Query n" holds the
    n-th question asked: position [i] of the display carries the number
    [len - i] and the entry at index [len - i - 1] of [chat_history]. *)
Theorem history_expanders_numbering {A : Type} (chat_history : list A) :
  map snd (history_expanders chat_history) = rev chat_history /\
  List.length (history_expanders chat_history) = List.length chat_history /\
  forall (i : nat) (n : Z) (chat : A),
    nth_error (history_expanders chat_history) i = Some (n, chat) ->
    n = (Z.of_nat (List.length chat_history) - Z.of_nat i)%Z /\
    (1 <= n <= Z.of_nat (List.length chat_history))%Z /\
    nth_error chat_history (Z.to_nat (n - 1)) = Some chat.
Proof.
  assert (Hshown : map snd (history_expanders chat_history) = rev chat_history).
  { unfold history_expanders, enumerate. rewrite map_map. cbn [snd].
    apply (map_snd_enumerate_from (rev chat_history) 0). }
  split; [exact Hshown|]. split.
  - rewrite <- (length_map snd), Hshown. apply length_rev.
  - intros i n chat. unfold history_expanders, enumerate. rewrite nth_error_map.
    destruct (nth_error _ i) as [[z a]|] eqn:E; [|discriminate].
    cbn [option_map fst snd]. intros [= <- <-].
    apply nth_error_enumerate_from in E as [-> E]. cbn [Nat.add] in *.
    rewrite nth_error_rev in E.
    destruct (Nat.ltb_spec i (List.length chat_history)) as [Hlt|]; [|discriminate].
    split; [reflexivity|]. split; [lia|].
    replace (Z.to_nat (Z.of_nat (List.length chat_history) - Z.of_nat i - 1))
      with (List.length chat_history - S i) by lia.
    exact E.
Qed.

Lemma history_expanders_numbering_witness :
  map snd (history_expanders ["first"; "second"; "third"])
  = ["third"; "second"; "first"] /\
  nth_error ["first"; "second"; "third"] (Z.to_nat (3 - 1)) = Some "third".
Proof.
  destruct (history_expanders_numbering ["first"; "second"; "third"])
    as (Hshown & _ & Hnum).
  split; [exact Hshown|].
  apply (Hnum 0 3%Z "third"). reflexivity.
Defined.

(** *** The table preview and the gate *)

Lemma append_eq_append (k v x z : string) :
  k ++ v = x ++ z ->
  (exists w, x = k ++ w /\ v = w ++ z) \/ (exists w, k = x ++ w /\ z = w ++ v).
Proof.
  revert x. induction k as [|a k IH]; intros x H.
  - left. exists x. now split.
  - destruct x as [|b x].
    + right. exists (String a k). now split.
    + cbn [append] in H. injection H as <- H.
      destruct (IH x H) as [(w & -> & ->)|(w & -> & ->)].
      * left. now exists w.
      * right. now exists w.
Qed.

Lemma has_char_append (c : ascii) (a b : string) :
  has_char c (a ++ String c b) = true.
Proof.
  induction a as [|x a IH]; cbn [append has_char].
  - now rewrite Ascii.eqb_refl.
  - rewrite IH. apply orb_true_r.
Qed.

(** A word without the character [c] that occurs in [x c y] occurs in [x]
    or in [y]. *)
Lemma substring_across_char (k x y : string) (c : ascii) :
  has_char c k = false ->
  substring_of k (x ++ String c y) ->
  substring_of k x \/ substring_of k y.
Proof.
  intros Hc (u & v & H). symmetry in H.
  apply append_eq_append in H as [(w & -> & H)|(w & -> & H)].
  - apply append_eq_append in H as [(w' & -> & ->)|(w' & -> & H)].
    + left. now exists u, w'.
    + destruct w' as [|c' w'].
      * left. exists u, "". now rewrite !append_empty_r.
      * cbn [append] in H. injection H as <- _.
        rewrite has_char_append in Hc. discriminate Hc.
  - destruct w as [|c' w].
    + cbn [append] in H. destruct k as [|c' k].
      * left. exists x, "". now rewrite append_empty_r.
      * cbn [append] in H. injection H as <- _.
        cbn [has_char] in Hc. rewrite Ascii.eqb_refl in Hc. discriminate Hc.
    + cbn [append] in H. injection H as _ ->. right. now exists w, v.
Qed.

Lemma keyword_in_preview (k t : string) :
  In k dangerous_keywords ->
  str_in k (lower (sample_query t)) = str_in k (lower t).
Proof.
  intros Hk.
  assert (Hshape : lower (sample_query t)
                   = "select * from " ++ String "`" (lower t ++ String "`" " limit 10")).
  { unfold sample_query. rewrite !lower_append. reflexivity. }
  rewrite Hshape.
  assert (Hfacts : has_char "`" k = false /\
                   str_in k "select * from " = false /\
                   str_in k " limit 10" = false).
  { unfold dangerous_keywords in Hk. cbn [In] in Hk.
    decompose [or] Hk; try contradiction; subst k; repeat split; reflexivity. }
  destruct Hfacts as (Htick & Hpre & Hpost).
  destruct (str_in k (lower t)) eqn:Ht.
  - apply str_in_iff. apply str_in_iff in Ht as (a & b & ->).
    exists ("select * from `" ++ a), (b ++ "` limit 10").
    rewrite !append_assoc3. reflexivity.
  - apply str_in_false_iff. intros Hs.
    apply (substring_across_char _ _ _ _ Htick) in Hs as [Hs|Hs].
    + apply str_in_iff in Hs. congruence.
    + apply (substring_across_char _ _ _ _ Htick) in Hs as [Hs|Hs];
        apply str_in_iff in Hs; congruence.
Qed.

(** The six denylist tests agree on the preview statement and on the name. *)
Lemma preview_keywords_agree (table_name : string) (ks : list string) :
  (forall k, In k ks -> In k dangerous_keywords) ->
  existsb (fun keyword => str_in keyword (lower (sample_query table_name))) ks
  = existsb (fun keyword => str_in keyword (lower table_name)) ks.
Proof.
  induction ks as [|k ks IH]; intros Hks; [reflexivity|]. cbn [existsb].
  rewrite keyword_in_preview by (apply Hks; now left).
  rewrite IH; [reflexivity|]. intros k' Hk'. apply Hks. now right.
Qed.

(** X12.  The preview statement built around a table name gets the gate's
    verdict on the name itself: a table whose name holds a denylist word
    (say [updates] or [created_items]) can never be previewed, and any
    other table always passes. *)
Theorem preview_query_gate (table_name : string) :
  validate_query (sample_query table_name) = validate_query table_name.
Proof.
  unfold validate_query. f_equal.
  apply preview_keywords_agree. intros k Hk. exact Hk.
Qed.

(** ** The preview button against the server, and the prompt *)

(** X13.  Pressing the preview button for a table sends one statement to the
    query runner when the table's name passes the gate, and none when it
    does not: the server then answers the fixed rejection. *)
Theorem preview_reaches_warehouse (self : server) (table_name : string) :
  snd (run (execute_sql_query self (sample_query table_name)))
  = (if validate_query table_name then [DbRun (sample_query table_name)] else []) /\
  (validate_query table_name = false ->
   run (execute_sql_query self (sample_query table_name)) = (Return rejection, [])).
Proof.
  assert (Hgate : validate_query (sample_query table_name)
                  = validate_query table_name).
  { unfold validate_query. f_equal. apply preview_keywords_agree. auto. }
  unfold run, execute_sql_query, mtry, mbind, call, mret.
  rewrite Hgate. destruct (validate_query table_name); cbn [negb].
  - split; [|discriminate].
    destruct (db_run self (sample_query table_name)) as [res|e]; [reflexivity|].
    cbv beta iota. destruct (is_Exception e); reflexivity.
  - split; reflexivity.
Qed.

Lemma preview_reaches_warehouse_witness :
  run (execute_sql_query (mock_server (Return "")) (sample_query "daily_updates"))
  = (Return rejection, []).
Proof.
  apply (proj2 (preview_reaches_warehouse (mock_server (Return "")) "daily_updates")).
  reflexivity.
Defined.

Lemma concat_substring (sep t : string) (parts : list string) :
  In t parts -> substring_of t (String.concat sep parts).
Proof.
  induction parts as [|x parts IH]; [intros []|].
  destruct parts as [|y parts].
  - intros [<-|[]]. exists "", "". cbn. now rewrite append_empty_r.
  - intros [<-|H].
    + exists "", (sep ++ String.concat sep (y :: parts)). reflexivity.
    + apply IH in H. eapply substring_of_trans; [exact H|].
      exists (x ++ sep), "". now rewrite append_empty_r, append_assoc3.
Qed.

(** X14.  The prompt handed to the model holds the user's question and every
    table name of the catalog, each one unchanged. *)
Theorem prompt_embeds_inputs (tables : list string) (query : string) :
  substring_of query (nl_prompt tables query) /\
  (forall t, In t tables -> substring_of t (nl_prompt tables query)) /\
  startswith (nl_prompt tables query) "Available tables: " = true.
Proof.
  unfold nl_prompt, join. split; [|split].
  - exists (("Available tables: " ++ String.concat ", " tables ++ ". ") ++ LF
            ++ "User query: "),
      (LF ++ "Generate and execute an appropriate SQL query.").
    now rewrite !append_assoc3.
  - intros t Ht. apply (concat_substring ", ") in Ht.
    eapply substring_of_trans; [exact Ht|].
    exists "Available tables: ",
      (". " ++ LF ++ "User query: " ++ query ++ LF ++
       "Generate and execute an appropriate SQL query.").
    now rewrite !append_assoc3.
  - rewrite append_assoc3. apply startswith_append.
Qed.

(** ** Server start-up *)


